(** * Distance and route helpers (apis/distance_and_route/distance_and_route.js)

    A shallow embedding of the module's functions: [_toPoint],
    [_validatePoint], [_haversine], [_fetchJson], [calculateDistance],
    [getDistanceMatrix], [optimizeRoute] and [getEstimatedTime].

    - JavaScript numbers are IEEE binary64 values: Rocq's primitive [float].
    - Values that come from the caller or from a provider's JSON response are
      terms of [Value]; property reads follow the language (a read on
      [undefined] or [null] throws a [TypeError]).
    - An [async] function is a computation over the log of requests issued so
      far, ending in [Resolved] or [Rejected]; the network is an oracle that
      answers each request.
    - What the language leaves to the engine ([Math.sin], [Math.cos],
      [Math.atan2], the parsing of strings as numbers, the coercion of objects)
      is a field of [Runtime]; what it fixes exactly (the arithmetic,
      [Math.sqrt], [Math.round]) is computed. *)

From Stdlib Require Import ZArith List String Ascii Bool Lia Permutation.
From Stdlib Require Uint63 DecimalString.
From stdpp Require Import base list.
From Stdlib Require Import Floats.
Import ListNotations.

Open Scope string_scope.
Open Scope list_scope.

(** ** Values *)

#[local] Set Warnings "-register-all,-inexact-float".

Inductive Value : Type :=
| JUndefined
| JNull
| JBool (b : bool)
| JNum (x : float)
| JStr (s : string)
| JArr (elems : list Value)
| JObj (fields : list (string * Value)).

(** What a [catch] clause can receive.  The messages of the source are kept as
    constructors, with the interpolated value as argument. *)
Inductive PointName := PointA | PointB | PointsAt (i : nat).

Inductive JSError : Type :=
| InvalidPoint (name : PointName)
| InvalidInput
| NetworkError
| HttpError (status : nat)
| JsonError
| TypeError
| GoogleApiError (status : Value)
| GoogleElementError (status : Value)
| GoogleDirectionsError (status : Value)
| OsrmError (code : Value)
| OsrmNoRoute
| OsrmTableError (code : Value)
| OsrmTripError (code : Value)
| OutOfMemory.

Inductive Outcome (A : Type) : Type :=
| Resolved (a : A)
| Rejected (e : JSError).
Arguments Resolved {A} a.
Arguments Rejected {A} e.

Definition obind {A B} (m : Outcome A) (k : A -> Outcome B) : Outcome B :=
  match m with
  | Resolved a => k a
  | Rejected e => Rejected e
  end.

Definition is_resolved {A} (m : Outcome A) : bool :=
  match m with Resolved _ => true | Rejected _ => false end.

(** ** The engine *)

Record Runtime : Type := {
  Math_sin : float -> float;
  Math_cos : float -> float;
  Math_atan2 : float -> float -> float;
  (** [Number(s)] for a string [s]. *)
  StringToNumber : string -> float;
  (** [Number(v)] for an array or an object [v]. *)
  ObjectToNumber : Value -> float;
  (** [a + b] when an operand is not a number. *)
  Plus : Value -> Value -> Value
}.

Definition Math_PI : float := 0x1.921fb54442d18p+1%float.

(** [!!v] *)
Definition truthy (v : Value) : bool :=
  match v with
  | JUndefined | JNull => false
  | JBool b => b
  | JNum x => negb (is_zero x || is_nan x)
  | JStr s => negb (String.eqb s "")
  | JArr _ | JObj _ => true
  end.

(** [v === "s"] *)
Definition is_str (v : Value) (s : string) : bool :=
  match v with
  | JStr t => String.eqb t s
  | _ => false
  end.

(** [v !== undefined] *)
Definition defined (v : Value) : bool :=
  match v with
  | JUndefined => false
  | _ => true
  end.

(** [v !== 0] *)
Definition strict_ne_zero (v : Value) : bool :=
  match v with
  | JNum x => negb (x =? 0)%float
  | _ => true
  end.

(** [a || b] *)
Definition js_or (a b : Value) : Value := if truthy a then a else b.

(** [a ?? b] *)
Definition js_coalesce (a b : Value) : Value :=
  match a with
  | JUndefined | JNull => b
  | _ => a
  end.

Fixpoint assoc (k : string) (fs : list (string * Value)) : Value :=
  match fs with
  | [] => JUndefined
  | (k', v) :: rest => if String.eqb k k' then v else assoc k rest
  end.

Definition of_nat (n : nat) : float := PrimFloat.of_uint63 (Uint63.of_Z (Z.of_nat n)).

Definition decimal (n : nat) : string := DecimalString.NilZero.string_of_uint (Nat.to_uint n).

(** [v.k] for the property names the module reads; none of them is a property
    of a prototype except [length]. *)
Definition get (v : Value) (k : string) : Outcome Value :=
  match v with
  | JUndefined | JNull => Rejected TypeError
  | JObj fs => Resolved (assoc k fs)
  | JArr l => Resolved (if String.eqb k "length" then JNum (of_nat (length l)) else JUndefined)
  | JStr s => Resolved (if String.eqb k "length" then JNum (of_nat (String.length s)) else JUndefined)
  | JBool _ | JNum _ => Resolved JUndefined
  end.

(** [v[i]] for a literal or loop index [i]. *)
Definition get_at (v : Value) (i : nat) : Outcome Value :=
  match v with
  | JUndefined | JNull => Rejected TypeError
  | JArr l => Resolved (nth i l JUndefined)
  | JStr s => Resolved (match String.get i s with
                        | Some c => JStr (String c EmptyString)
                        | None => JUndefined
                        end)
  | JObj fs => Resolved (assoc (decimal i) fs)
  | JBool _ | JNum _ => Resolved JUndefined
  end.

(** [a && k], where [k] is evaluated only when [a] is truthy. *)
Definition and_then (a : Value) (k : Outcome Value) : Outcome Value :=
  if truthy a then k else Resolved a.

(** The number of rounds of [for (let i = 0; i < bound; i++)] for a number
    [bound], and [None] when the loop does not end: past [2^53] the counter no
    longer changes. *)
Definition rounds_below (bound : float) : option nat :=
  match Prim2SF bound with
  | S754_finite false m e =>
      if (0x1p+53 <? bound)%float then None
      else if (0 <=? e)%Z then Some (Z.to_nat (Z.pos m * 2 ^ e))
      else Some (Z.to_nat (Z.shiftr (Z.pos m + 2 ^ (- e) - 1) (- e)))
  | S754_infinity false => None
  | _ => Some 0
  end.

(** The array index that a number denotes as a property key, if any. *)
Definition index_of_float (x : float) : option N :=
  match Prim2SF x with
  | S754_zero _ => Some 0%N
  | S754_finite false m e =>
      if (0 <=? e)%Z then Some (Z.to_N (Z.pos m * 2 ^ e))
      else if (Z.pos m mod 2 ^ (- e) =? 0)%Z then Some (Z.to_N (Z.pos m / 2 ^ (- e)))
      else None
  | _ => None
  end.

Definition digit_of (c : ascii) : option N :=
  let n := N_of_ascii c in
  if ((48 <=? n) && (n <=? 57))%N then Some (n - 48)%N else None.

Fixpoint digits_value (acc : N) (s : string) : option N :=
  match s with
  | EmptyString => Some acc
  | String c rest =>
      match digit_of c with
      | Some d => digits_value (10 * acc + d)%N rest
      | None => None
      end
  end.

(** The array index that a string denotes as a property key, if any: a
    decimal numeral without a leading zero. *)
Definition index_of_string (s : string) : option N :=
  match s with
  | EmptyString => None
  | String "0" EmptyString => Some 0%N
  | String "0" _ => None
  | _ => digits_value 0 s
  end.

(** [v === n] for the length [n] of an array. *)
Definition strict_eq_nat (v : Value) (n : nat) : bool :=
  match v with
  | JNum x => (x =? of_nat n)%float
  | _ => false
  end.

(** ** Points *)

Record Point : Type := { lat : float; lng : float }.

Section Engine.
Variable rt : Runtime.

(** [Number(v)] *)
Definition Number (v : Value) : float :=
  match v with
  | JUndefined => nan
  | JNull => 0%float
  | JBool b => if b then 1%float else 0%float
  | JNum x => x
  | JStr s => StringToNumber rt s
  | JArr _ | JObj _ => ObjectToNumber rt v
  end.

(** [null] is [None]. *)
Definition _toPoint (p : Value) : option Point :=
  if negb (truthy p) && strict_ne_zero p then None
  else match p with
  | JArr l =>
      Some {| lat := Number (nth 0 l JUndefined); lng := Number (nth 1 l JUndefined) |}
  | JObj fs =>
      if defined (assoc "lat" fs) && defined (assoc "lng" fs)
      then Some {| lat := Number (assoc "lat" fs); lng := Number (assoc "lng" fs) |}
      else if defined (assoc "latitude" fs) && defined (assoc "longitude" fs)
      then Some {| lat := Number (assoc "latitude" fs); lng := Number (assoc "longitude" fs) |}
      else None
  | _ => None
  end.

Definition _validatePoint (p : Value) (name : PointName) : Outcome Point :=
  match _toPoint p with
  | None => Rejected (InvalidPoint name)
  | Some pt =>
      if is_nan (lat pt) || is_nan (lng pt)
      then Rejected (InvalidPoint name)
      else Resolved pt
  end.

(** The rounds of [for (let i = 0; i < v.length; i++)]. *)
Definition rounds (v : Value) : Outcome (option nat) :=
  match v with
  | JUndefined | JNull => Rejected TypeError
  | JArr l => Resolved (Some (length l))
  | JStr s => Resolved (Some (String.length s))
  | JBool _ | JNum _ => Resolved (Some 0)
  | JObj fs => Resolved (rounds_below (Number (assoc "length" fs)))
  end.

(** [mapM]: the first failure ends the traversal. *)
Fixpoint traverse {A B} (f : A -> Outcome B) (l : list A) : Outcome (list B) :=
  match l with
  | [] => Resolved []
  | a :: rest =>
      obind (f a) (fun b => obind (traverse f rest) (fun bs => Resolved (b :: bs)))
  end.

(** [for (let i = 0; i < v.length; i++) { out.push(body(v[i])) }]; a loop
    that does not end exhausts the memory. *)
Definition for_index {A} (v : Value) (body : Value -> Outcome A) : Outcome (list A) :=
  obind (rounds v) (fun n =>
    match n with
    | None => Rejected OutOfMemory
    | Some n => traverse (fun i => obind (get_at v i) body) (seq 0 n)
    end).

(** [points.map((p, i) => _validatePoint(p, `points[${i}]`))] *)
Fixpoint validate_from (i : nat) (l : list Value) : Outcome (list Point) :=
  match l with
  | [] => Resolved []
  | p :: rest =>
      obind (_validatePoint p (PointsAt i)) (fun pt =>
      obind (validate_from (S i) rest) (fun pts => Resolved (pt :: pts)))
  end.

(** [if (!Array.isArray(points) || points.length < 2) throw ...], then the
    points are normalized. *)
Definition validate_points (points : Value) : Outcome (list Point) :=
  match points with
  | JArr l => if (length l <? 2)%nat then Rejected InvalidInput else validate_from 0 l
  | _ => Rejected InvalidInput
  end.

End Engine.

(** ** Great-circle distance *)

(** [Math.round]: the nearest integer, a tie going up; the sign of a zero
    result is the sign of the argument. *)
Definition Math_round (x : float) : float :=
  match Prim2SF x with
  | S754_finite s m e =>
      if (0 <=? e)%Z then x
      else
        let z := if s then Z.neg m else Z.pos m in
        let r := Z.shiftr (2 * z + 2 ^ (- e)) (1 - e) in
        match r with
        | Z0 => if s then (-0)%float else 0%float
        | Z.pos _ => PrimFloat.of_uint63 (Uint63.of_Z r)
        | Z.neg _ => (- PrimFloat.of_uint63 (Uint63.of_Z (- r)))%float
        end
  | _ => x
  end.

Definition toRad (d : float) : float := ((d * Math_PI) / 180)%float.

Section Haversine.
Variable rt : Runtime.

Definition _haversine (a b : Point) : float :=
  let R := 6371000%float in
  let phi1 := toRad (lat a) in
  let phi2 := toRad (lat b) in
  let dphi := toRad (lat b - lat a) in
  let dlambda := toRad (lng b - lng a) in
  let sin_dphi := Math_sin rt (dphi / 2) in
  let sin_dlambda := Math_sin rt (dlambda / 2) in
  let h := (sin_dphi * sin_dphi
            + Math_cos rt phi1 * Math_cos rt phi2 * sin_dlambda * sin_dlambda)%float in
  let c := (2 * Math_atan2 rt (sqrt h) (sqrt (1 - h)))%float in
  (R * c)%float.

End Haversine.

(** ** Requests and promises *)

(** A URL is kept as the endpoint and the values interpolated into it. *)
Inductive Endpoint : Type :=
| GoogleDistanceMatrix (origins destinations : list Point) (key : Value)
| GoogleDirections (origin destination : Point) (waypoints : list Point) (key : Value)
| OrsMatrix (profile : Value)
| OsrmRoute (profile : Value) (coords : list Point)
| OsrmTable (profile : Value) (coords : list Point)
| OsrmTrip (profile : Value) (coords : list Point) (params : list string).

(** The [init] of the POST requests: the [Authorization] header and the
    [locations] of the body, each [[lng, lat]]. *)
Record FetchInit : Type := { authorization : Value; locations : list (float * float) }.

Record Request : Type := { url : Endpoint; init : option FetchInit }.

(** What [fetch] does with a request: it rejects, or it resolves with a
    response, whose body may or may not parse as JSON. *)
Inductive FetchOutcome : Type :=
| FetchRejected
| FetchResponse (ok : bool) (status : nat) (json : option Value).

(** What [_fetchJson] makes of the outcome of [fetch]: [if (!res.ok) throw ...;
    return res.json()]. *)
Definition response_json (o : FetchOutcome) : Outcome Value :=
  match o with
  | FetchRejected => Rejected NetworkError
  | FetchResponse ok status json =>
      if negb ok then Rejected (HttpError status)
      else match json with
           | Some v => Resolved v
           | None => Rejected JsonError
           end
  end.

(** The network answers the [n]-th request of a call. *)
Definition Network : Type := nat -> Request -> FetchOutcome.

Definition Async (A : Type) : Type := list Request -> Outcome A * list Request.

Definition ret {A} (a : A) : Async A := fun log => (Resolved a, log).
Definition throw {A} (e : JSError) : Async A := fun log => (Rejected e, log).
Definition lift {A} (m : Outcome A) : Async A := fun log => (m, log).

Definition bind {A B} (m : Async A) (k : A -> Async B) : Async B :=
  fun log =>
    match m log with
    | (Resolved a, log') => k a log'
    | (Rejected e, log') => (Rejected e, log')
    end.

(** [try { m } catch (err) { handler err }], and [m.catch(handler)]. *)
Definition catch {A} (m : Async A) (handler : JSError -> Async A) : Async A :=
  fun log =>
    match m log with
    | (Resolved a, log') => (Resolved a, log')
    | (Rejected e, log') => handler e log'
    end.

Declare Scope async_scope.
Delimit Scope async_scope with async.
Notation "'do' x <- m ; k" := (bind m (fun x => k))
  (at level 10, x name, m at level 100, k at level 200) : async_scope.
Notation "'do' x <~ m ; k" := (bind (lift m) (fun x => k))
  (at level 10, x name, m at level 100, k at level 200) : async_scope.
Notation "'try' x <- m ; k" := (obind m (fun x => k))
  (at level 10, x name, m at level 100, k at level 200) : async_scope.

(** A call starts with an empty log. *)
Definition run {A} (m : Async A) : Outcome A * list Request := m [].
Definition result {A} (m : Async A) : Outcome A := fst (run m).
Definition requests {A} (m : Async A) : list Request := snd (run m).

Record Options : Type := {
  provider : Value;
  googleApiKey : Value;
  openRouteServiceApiKey : Value;
  profile : Value;
  roundtrip : Value
}.

(** [{}] *)
Definition no_options : Options :=
  {| provider := JUndefined; googleApiKey := JUndefined;
     openRouteServiceApiKey := JUndefined; profile := JUndefined;
     roundtrip := JUndefined |}.

(** [{ distance, duration, unit: "meters" }]; [duration] is [None] when the
    object has no such key. *)
Record DistanceResult : Type := {
  distance : Value;
  duration : option Value
}.

(** [{ distances, durations, unit: "meters" }] *)
Record Matrix : Type := {
  distances : Value;
  durations : Value
}.

(** [{ waypoints, waypointsOrder, distance, duration, provider }]; a waypoint
    [None] is [undefined]. *)
Record Route : Type := {
  waypoints : list (option Point);
  waypointsOrder : Value;
  route_distance : Value;
  route_duration : Value;
  route_provider : string
}.

(** [m.distances[i][j]], when there is such a cell. *)
Definition cell (table : Value) (i j : nat) : option Value :=
  match table with
  | JArr rows =>
      match rows !! i with
      | Some (JArr cells) => cells !! j
      | _ => None
      end
  | _ => None
  end.

(** ** The module's functions *)

Section Module.
Variable rt : Runtime.
Variable net : Network.

Open Scope async_scope.

(** [_fetchJson(url, init)]: the request is issued, then the response is
    checked and parsed. *)
Definition _fetchJson (u : Endpoint) (i : option FetchInit) : Async Value :=
  fun log =>
    let req := {| url := u; init := i |} in
    (response_json (net (List.length log) req), (log ++ [req])%list).

(** [(provider === "google" || provider === "auto") && options.googleApiKey] *)
Definition google_selected (options : Options) : bool :=
  let provider := js_or (provider options) (JStr "auto") in
  (is_str provider "google" || is_str provider "auto") && truthy (googleApiKey options).

(** [(provider === "ors" || provider === "openrouteservice" || provider === "auto")
     && options.openRouteServiceApiKey] *)
Definition ors_selected (options : Options) : bool :=
  let provider := js_or (provider options) (JStr "auto") in
  (is_str provider "ors" || is_str provider "openrouteservice" || is_str provider "auto")
  && truthy (openRouteServiceApiKey options).

(** [provider === "osrm" || provider === "auto"] *)
Definition osrm_selected (options : Options) : bool :=
  let provider := js_or (provider options) (JStr "auto") in
  is_str provider "osrm" || is_str provider "auto".

(** [(options.profile || "driving").toString()], kept as the value whose
    string form goes into the URL. *)
Definition profile_of (options : Options) : Value :=
  js_or (profile options) (JStr "driving").

(** The Google branch of [calculateDistance], after the request. *)
Definition google_pair (data : Value) : Outcome DistanceResult :=
  try status <- get data "status";
  if negb (is_str status "OK") then Rejected (GoogleApiError status) else
  try rows <- get data "rows";
  try c <- and_then rows (
             try row0 <- get_at rows 0;
             and_then row0 (
               try elements <- get row0 "elements";
               and_then elements (get_at elements 0)));
  let cell := js_or c (JObj []) in
  try cstatus <- get cell "status";
  if negb (is_str cstatus "OK")
  then Rejected (GoogleElementError (js_or cstatus (JStr "no data"))) else
  try d <- get cell "distance";
  try dv <- get d "value";
  try t <- get cell "duration";
  try tv <- (if truthy t then get t "value" else Resolved JUndefined);
  Resolved {| distance := dv; duration := Some tv |}.

(** [(m && m[0] && m[0][1])] *)
Definition cell_0_1 (m : Value) : Outcome Value :=
  and_then m (try row0 <- get_at m 0; and_then row0 (get_at row0 1)).

(** The OpenRouteService branch of [calculateDistance], after the requests. *)
Definition ors_pair (A B : Point) (resp : Value) : Outcome DistanceResult :=
  try distances <- get resp "distances";
  try d <- cell_0_1 distances;
  let dist := js_or d (JNum (_haversine rt A B)) in
  try durations <- get resp "durations";
  try t <- cell_0_1 durations;
  let dur := js_or t JUndefined in
  Resolved {| distance := dist; duration := Some dur |}.

(** The OSRM branch of [calculateDistance], after the request. *)
Definition osrm_pair (data : Value) : Outcome DistanceResult :=
  try code <- get data "code";
  if truthy code && negb (is_str code "Ok") then Rejected (OsrmError code) else
  try routes <- get data "routes";
  try r <- and_then routes (get_at routes 0);
  let route := js_or r JNull in
  if negb (truthy route) then Rejected OsrmNoRoute else
  try d <- get route "distance";
  try t <- get route "duration";
  Resolved {| distance := d; duration := Some t |}.

(** [{ distance: Math.round(_haversine(A, B)), unit: "meters" }] *)
Definition haversine_result (A B : Point) : DistanceResult :=
  {| distance := JNum (Math_round (_haversine rt A B)); duration := None |}.

(** The two requests of the OpenRouteService branch: [foot-walking] first
    and, if that fails, the caller's profile. *)
Definition ors_request (profile : Value) (i : option FetchInit) : Async Value :=
  catch (_fetchJson (OrsMatrix (JStr "foot-walking")) i)
        (fun _ => _fetchJson (OrsMatrix profile) i).

(** The body of the [try] of the OSRM branch. *)
Definition osrm_attempt (profile : Value) (A B : Point) : Async DistanceResult :=
  do data <- _fetchJson (OsrmRoute profile [A; B]) None;
  lift (osrm_pair data).

(** The outer [try { ... } catch (error) { console.error(...); throw error; }]
    rethrows what it caught: it is the identity on outcomes and is left out. *)
Definition calculateDistance (a b : Value) (options : Options) : Async DistanceResult :=
  do A <~ _validatePoint rt a PointA;
  do B <~ _validatePoint rt b PointB;
  let profile := profile_of options in
  if google_selected options then
    do data <- _fetchJson (GoogleDistanceMatrix [A] [B] (googleApiKey options)) None;
    lift (google_pair data)
  else if ors_selected options then
    let i := Some {| authorization := openRouteServiceApiKey options;
                     locations := [(lng A, lat A); (lng B, lat B)] |} in
    do resp <- ors_request profile i;
    lift (ors_pair A B resp)
  else
    do r <- (if osrm_selected options
             then catch (do res <- osrm_attempt profile A B; ret (Some res))
                        (fun _ => ret None)
             else ret None);
    match r with
    | Some res => ret res
    | None => ret (haversine_result A B)
    end.

(** [res.duration ?? null] *)
Definition getEstimatedTime (a b : Value) (options : Options) : Async Value :=
  do res <- calculateDistance a b options;
  ret (js_coalesce (match duration res with Some t => t | None => JUndefined end) JNull).

(** *** getDistanceMatrix *)

(** One element of the Google matrix: the cells pushed to [dRow] and [tRow]. *)
Definition google_element (elem : Value) : Outcome (Value * Value) :=
  try ok <- and_then elem (try st <- get elem "status"; Resolved (JBool (is_str st "OK")));
  if truthy ok then
    try d <- get elem "distance";
    try dv <- get d "value";
    try t <- get elem "duration";
    try tv <- (if truthy t then get t "value" else Resolved JNull);
    Resolved (dv, tv)
  else Resolved (JNull, JNull).

Definition google_row (row : Value) : Outcome (Value * Value) :=
  try elements <- get row "elements";
  try cells <- for_index rt elements google_element;
  Resolved (JArr (map fst cells), JArr (map snd cells)).

(** The Google branch of [getDistanceMatrix], after the request. *)
Definition google_matrix (data : Value) : Outcome Matrix :=
  try status <- get data "status";
  if negb (is_str status "OK") then Rejected (GoogleApiError status) else
  try rows <- get data "rows";
  try rs <- for_index rt rows google_row;
  Resolved {| distances := JArr (map fst rs); durations := JArr (map snd rs) |}.

(** [{ distances: resp.distances || null, durations: resp.durations || null }] *)
Definition passthrough_matrix (resp : Value) : Outcome Matrix :=
  try ds <- get resp "distances";
  try ts <- get resp "durations";
  Resolved {| distances := js_or ds JNull; durations := js_or ts JNull |}.

Definition osrm_matrix (data : Value) : Outcome Matrix :=
  try code <- get data "code";
  if truthy code && negb (is_str code "Ok") then Rejected (OsrmTableError code) else
  passthrough_matrix data.

(** [m[i][j] = v] *)
Definition set_cell (m : list (list Value)) (i j : nat) (v : Value) : list (list Value) :=
  match m !! i with
  | Some row => <[i := <[j := v]> row]> m
  | None => m
  end.

(** The body of the inner loop of the fallback, on both tables. *)
Definition haversine_cell (pts : list Point) (i j : nat)
    (tables : list (list Value) * list (list Value)) :
    list (list Value) * list (list Value) :=
  let '(ds, ts) := tables in
  if (i =? j)%nat then (set_cell ds i j (JNum 0), set_cell ts i j (JNum 0))
  else match pts !! i, pts !! j with
       | Some a, Some b =>
           (set_cell ds i j (JNum (Math_round (_haversine rt a b))), set_cell ts i j JNull)
       | _, _ => tables
       end.

(** The fallback of [getDistanceMatrix]: two tables of [null], filled by the
    two nested loops. *)
Definition haversine_tables (pts : list Point) :
    list (list Value) * list (list Value) :=
  let n := length pts in
  let empty := replicate n (replicate n JNull) in
  foldl (fun tables i => foldl (fun tables j => haversine_cell pts i j tables) tables (seq 0 n))
        (empty, empty) (seq 0 n).

Definition haversine_matrix (pts : list Point) : Matrix :=
  let '(ds, ts) := haversine_tables pts in
  {| distances := JArr (map JArr ds); durations := JArr (map JArr ts) |}.

Definition getDistanceMatrix (points : Value) (options : Options) : Async Matrix :=
  do pts <~ validate_points rt points;
  let profile := profile_of options in
  if google_selected options then
    do data <- _fetchJson (GoogleDistanceMatrix pts pts (googleApiKey options)) None;
    lift (google_matrix data)
  else if ors_selected options then
    let i := Some {| authorization := openRouteServiceApiKey options;
                     locations := map (fun p => (lng p, lat p)) pts |} in
    do resp <- _fetchJson (OrsMatrix profile) i;
    lift (passthrough_matrix resp)
  else if osrm_selected options then
    do data <- _fetchJson (OsrmTable profile pts) None;
    lift (osrm_matrix data)
  else ret (haversine_matrix pts).

(** *** optimizeRoute *)

(** [a + b] *)
Definition js_add (a b : Value) : Value :=
  match a, b with
  | (JStr _ | JArr _ | JObj _), _ | _, (JStr _ | JArr _ | JObj _) => Plus rt a b
  | _, _ => JNum (Number rt a + Number rt b)
  end.

(** [pts[key]]: [None] is [undefined]. *)
Definition element_at (pts : list Point) (key : Value) : option Point :=
  match key with
  | JNum x => match index_of_float x with
              | Some i => if (i <? N.of_nat (length pts))%N then pts !! N.to_nat i else None
              | None => None
              end
  | JStr s => match index_of_string s with
              | Some i => if (i <? N.of_nat (length pts))%N then pts !! N.to_nat i else None
              | None => None
              end
  | _ => None
  end.

(** The values a [for ... of] loop or an array pattern takes from [v]. *)
Definition iterate (v : Value) : Outcome (list Value) :=
  match v with
  | JArr l => Resolved l
  | JStr s => Resolved (map (fun c => JStr (String c EmptyString)) (list_ascii_of_string s))
  | _ => Rejected TypeError
  end.

(** [v.map(f)] and [v.reduce(...)] exist on arrays only. *)
Definition as_array (v : Value) : Outcome (list Value) :=
  match v with
  | JArr l => Resolved l
  | JUndefined | JNull | JBool _ | JNum _ | JStr _ | JObj _ => Rejected TypeError
  end.

(** [l.distance ? l.distance.value : 0], for the field [distance] or [duration]. *)
Definition leg_value (field : string) (l : Value) : Outcome Value :=
  try f <- get l field;
  if truthy f then get f "value" else Resolved (JNum 0).

(** [route.legs ? route.legs.reduce((s, l) => s + (...), 0) : null] *)
Definition legs_total (field : string) (route : Value) : Outcome Value :=
  try legs <- get route "legs";
  if truthy legs then
    try ls <- as_array legs;
    try vs <- traverse (leg_value field) ls;
    Resolved (foldl js_add (JNum 0) vs)
  else Resolved JNull.

(** The Google branch of [optimizeRoute], after the request. *)
Definition google_route (pts : list Point) (data : Value) : Outcome Route :=
  try status <- get data "status";
  if negb (is_str status "OK") then Rejected (GoogleDirectionsError status) else
  try routes <- get data "routes";
  try route <- and_then routes (get_at routes 0);
  try has_order <- and_then route (get route "waypoint_order");
  try waypointOrder <- (if truthy has_order then get route "waypoint_order"
                        else Resolved (JArr []));
  try reordered <-
    (if (2 <? length pts)%nat then
       try idxs <- iterate waypointOrder;
       Resolved ([pts !! 0%nat]
                 ++ map (fun idx => element_at pts (js_add (JNum 1) idx)) idxs
                 ++ [pts !! (length pts - 1)%nat])%list
     else Resolved [pts !! 0%nat; pts !! 1%nat]);
  try dist <- legs_total "distance" route;
  try dur <- legs_total "duration" route;
  Resolved {| waypoints := reordered; waypointsOrder := waypointOrder;
              route_distance := dist; route_duration := dur;
              route_provider := "google" |}.

(** [a.waypoint_index - b.waypoint_index < 0] on the values read from the
    two waypoints. *)
Definition index_before (ka kb : Value) : bool :=
  (Number rt ka - Number rt kb <? 0)%float.

(** A stable insertion: [x] goes before the first element that the
    comparator puts after it. *)
Fixpoint insert_waypoint (x : Value * Value) (sorted : list (Value * Value)) :
    list (Value * Value) :=
  match sorted with
  | [] => [x]
  | y :: rest =>
      if index_before (fst x) (fst y) then x :: y :: rest
      else y :: insert_waypoint x rest
  end.

(** [ws.slice().sort((a, b) => a.waypoint_index - b.waypoint_index)].  The
    comparator reads [waypoint_index] on every element as soon as there are
    two of them; the order is that of a stable sort. *)
Definition slice_sort (ws : Value) : Outcome (list Value) :=
  try l <- as_array ws;
  if (length l <? 2)%nat then Resolved l else
  try keyed <- traverse (fun w => try k <- get w "waypoint_index"; Resolved (k, w)) l;
  Resolved (map snd (foldl (fun sorted x => insert_waypoint x sorted) [] keyed)).

(** [const [lon, lat] = w.location; return { lat: Number(lat), lng: Number(lon) }] *)
Definition located (w : Value) : Outcome Point :=
  try loc <- get w "location";
  try xs <- iterate loc;
  Resolved {| lat := Number rt (nth 1 xs JUndefined); lng := Number rt (nth 0 xs JUndefined) |}.

(** The OSRM branch of [optimizeRoute], after the request.  [order] and
    [waypointOrder] are computed as in the source, for the errors they can
    throw; their values are not used. *)
Definition osrm_route (pts : list Point) (data : Value) : Outcome Route :=
  try code <- get data "code";
  if truthy code && negb (is_str code "Ok") then Rejected (OsrmTripError code) else
  try trips <- get data "trips";
  try trip <- and_then trips (get_at trips 0);
  try has_geometry <- and_then trip (try g <- get trip "geometry";
                                     and_then g (get data "waypoints"));
  try order <- (if truthy has_geometry then
                  try ws <- get data "waypoints";
                  try l <- as_array ws;
                  try ks <- traverse (fun w => get w "waypoint_index") l;
                  Resolved (JArr ks)
                else Resolved JNull);
  try ws <- get data "waypoints";
  try has_length <- and_then ws (get ws "length");
  try waypointOrder <- (if truthy has_length then
                          try sorted <- slice_sort ws;
                          traverse (fun wp => get wp "location") sorted
                        else Resolved []);
  try has_legs <- and_then trip (get trip "legs");
  try orderedPts <-
    (if truthy has_legs then
       try ws <- get data "waypoints";
       try same_length <- and_then ws (try len <- get ws "length";
                                       Resolved (JBool (strict_eq_nat len (length pts))));
       if truthy same_length then
         try sorted <- slice_sort ws;
         traverse located sorted
       else Resolved pts
     else Resolved pts);
  try dist <- (if truthy trip then get trip "distance" else Resolved JNull);
  try dur <- (if truthy trip then get trip "duration" else Resolved JNull);
  Resolved {| waypoints := map Some orderedPts; waypointsOrder := JNull;
              route_distance := dist; route_duration := dur;
              route_provider := "osrm" |}.

(** The inner loop of the local heuristic: [best] and [bestD] after the
    scan of the unvisited points; [None] is [-1]. *)
Definition scan_step (pts : list Point) (visited : list bool) (last : Point)
    (acc : option nat * float) (j : nat) : option nat * float :=
  match visited !! j, pts !! j with
  | Some false, Some pj =>
      let d := _haversine rt last pj in
      if (d <? snd acc)%float then (Some j, d) else acc
  | _, _ => acc
  end.

Definition scan (pts : list Point) (visited : list bool) (last : Point) : option nat * float :=
  foldl (scan_step pts visited last) (None, infinity) (seq 0 (length pts)).

(** The outer loop, [k] rounds from the end: [naiveOrder] after the loop.
    A round ends the loop when the scan finds no point. *)
Fixpoint nearest_loop (k : nat) (pts : list Point) (visited : list bool)
    (naiveOrder : list nat) : list nat :=
  match k with
  | O => naiveOrder
  | S k' =>
      match last naiveOrder ≫= (pts !!.) with
      | Some lastp =>
          match fst (scan pts visited lastp) with
          | Some best =>
              nearest_loop k' pts (<[best := true]> visited) (naiveOrder ++ [best])
          | None => naiveOrder
          end
      | None => naiveOrder
      end
  end.

Definition naiveOrder (pts : list Point) : list nat :=
  let n := length pts in
  nearest_loop (n - 1) pts (<[0%nat := true]> (replicate n false)) [0%nat].

Definition naive_route (pts : list Point) : Route :=
  {| waypoints := map (pts !!.) (naiveOrder pts);
     waypointsOrder := JArr (map (fun i => JNum (of_nat i)) (naiveOrder pts));
     route_distance := JNull; route_duration := JNull;
     route_provider := "naive-haversine" |}.

(** [options.roundtrip !== undefined ? Boolean(options.roundtrip) : false] *)
Definition roundtrip_of (options : Options) : bool :=
  if defined (roundtrip options) then truthy (roundtrip options) else false.

(** [pts[i]] where the source reads its coordinates. *)
Definition point_at (pts : list Point) (i : nat) : Outcome Point :=
  match pts !! i with
  | Some p => Resolved p
  | None => Rejected TypeError
  end.

Definition optimizeRoute (points : Value) (options : Options) : Async Route :=
  do pts <~ validate_points rt points;
  let profile := profile_of options in
  let roundtrip := roundtrip_of options in
  if google_selected options then
    let n := length pts in
    do origin <~ point_at pts 0;
    do destination <~ (if (2 <? n)%nat then point_at pts (n - 1) else point_at pts 1);
    let waypoints := if (2 <? n)%nat then take (n - 2) (drop 1 pts) else [] in
    do data <- _fetchJson (GoogleDirections origin destination waypoints
                                            (googleApiKey options)) None;
    lift (google_route pts data)
  else if osrm_selected options then
    let params := ((if roundtrip then []
                    else ["roundtrip=false"; "source=first"; "destination=last"])
                   ++ ["overview=full"])%list in
    do data <- _fetchJson (OsrmTrip profile pts params) None;
    lift (osrm_route pts data)
  else ret (naive_route pts).

End Module.

(** ** What counts as a failed attempt *)

(** [fetch] rejected, the status was not a success, or the body was not JSON. *)
Definition fetch_errors (o : FetchOutcome) : bool :=
  match o with
  | FetchRejected => true
  | FetchResponse ok _ json =>
      negb ok || match json with Some _ => false | None => true end
  end.

(** The attempt of a provider errors: the fetch fails, or the branch throws on
    the data (an error status, missing data). *)
Definition attempt_errors {A} (o : FetchOutcome) (parse : Value -> Outcome A) : bool :=
  match o with
  | FetchResponse true _ (Some data) => negb (is_resolved (parse data))
  | _ => true
  end.

Definition google_request (options : Options) (A B : Point) : Request :=
  {| url := GoogleDistanceMatrix [A] [B] (googleApiKey options); init := None |}.

Definition ors_init (options : Options) (A B : Point) : option FetchInit :=
  Some {| authorization := openRouteServiceApiKey options;
          locations := [(lng A, lat A); (lng B, lat B)] |}.

Definition ors_first_request (options : Options) (A B : Point) : Request :=
  {| url := OrsMatrix (JStr "foot-walking"); init := ors_init options A B |}.

Definition ors_second_request (options : Options) (A B : Point) : Request :=
  {| url := OrsMatrix (profile_of options); init := ors_init options A B |}.

Definition osrm_request (options : Options) (A B : Point) : Request :=
  {| url := OsrmRoute (profile_of options) [A; B]; init := None |}.

Definition table_request (options : Options) (pts : list Point) : Request :=
  {| url := OsrmTable (profile_of options) pts; init := None |}.

(** The provider a request goes to. *)
Inductive Provider := Google | OpenRouteService | OSRM.

Definition provider_of (r : Request) : Provider :=
  match url r with
  | GoogleDistanceMatrix _ _ _ | GoogleDirections _ _ _ _ => Google
  | OrsMatrix _ => OpenRouteService
  | OsrmRoute _ _ | OsrmTable _ _ | OsrmTrip _ _ _ => OSRM
  end.

(** ** Notions used in the statements *)

(** [v] is the number [0] or [-0]. *)
Definition is_zero_number (v : Value) : bool :=
  match v with
  | JNum z => is_zero z
  | _ => false
  end.

(** [m[i][j]] on a table kept as a list of rows. *)
Definition lookup2 (m : list (list Value)) (i j : nat) : option Value :=
  match m !! i with
  | Some row => row !! j
  | None => None
  end.

(** A table of [n] rows of [n] cells. *)
Definition square (n : nat) (m : list (list Value)) : Prop :=
  length m = n /\ forall i row, m !! i = Some row -> length row = n.

(** Both tables of the fallback are [n] by [n]. *)
Definition squares (n : nat) (t : list (list Value) * list (list Value)) : Prop :=
  square n (fst t) /\ square n (snd t).

(** The cell that the fallback of [getDistanceMatrix] writes at row [i],
    column [j] of [distances]. *)
Definition haversine_distance_cell (rt : Runtime) (pts : list Point) (i j : nat) : Value :=
  if (i =? j)%nat then JNum 0
  else match pts !! i, pts !! j with
       | Some a, Some b => JNum (Math_round (_haversine rt a b))
       | _, _ => JNull
       end.

(** The cell that it writes in [durations]. *)
Definition haversine_duration_cell (i j : nat) : Value :=
  if (i =? j)%nat then JNum 0 else JNull.

(** Every distance that the heuristic can compute on [pts] is a number below
    [Infinity]. *)
Definition finite_hops (rt : Runtime) (pts : list Point) : bool :=
  forallb (fun a => forallb (fun b => (_haversine rt a b <? infinity)%float) pts) pts.

(** The order is greedy: the point placed after [cur] is one that no point
    still to be placed is strictly closer to [cur] than. *)
Definition greedy (rt : Runtime) (pts : list Point) (order : list nat) : Prop :=
  forall k cur next pc pn,
    order !! k = Some cur -> order !! S k = Some next ->
    pts !! cur = Some pc -> pts !! next = Some pn ->
    (next ∉ take (S k) order)
    /\ forall j pj, (j ∉ take (S k) order) -> pts !! j = Some pj ->
         (_haversine rt pc pj <? _haversine rt pc pn)%float = false.

(** What the scan of the heuristic knows after the indices [seen]: nothing
    found and no distance below [Infinity] so far, or the point found, its
    distance, and that no unvisited point seen is strictly closer. *)
Definition scan_knows (rt : Runtime) (pts : list Point) (visited : list bool) (last : Point)
    (seen : nat -> Prop) (acc : option nat * float) : Prop :=
  match acc with
  | (None, d) =>
      d = infinity
      /\ forall j pj, seen j -> visited !! j = Some false -> pts !! j = Some pj ->
           (_haversine rt last pj <? infinity)%float = false
  | (Some best, d) =>
      exists pb, visited !! best = Some false /\ pts !! best = Some pb
        /\ d = _haversine rt last pb /\ (d <? infinity)%float = true
        /\ forall j pj, seen j -> visited !! j = Some false -> pts !! j = Some pj ->
             (_haversine rt last pj <? d)%float = false
  end.

(** The loop keeps [visited] and [naiveOrder] in step: the flags set are
    those of the indices in the order. *)
Definition in_step (n : nat) (visited : list bool) (order : list nat) : Prop :=
  length visited = n
  /\ NoDup order
  /\ (forall j, j ∈ order -> (j < n)%nat)
  /\ (forall j, (j < n)%nat -> visited !! j = Some (bool_decide (j ∈ order))).

(** In the range of the data model. *)
Definition in_range (p : Point) : bool :=
  ((-90 <=? lat p) && (lat p <=? 90) && (-180 <=? lng p) && (lng p <=? 180))%float.

(** Equal up to the sign. *)
Definition mirror (x y : float) : Prop := x = y \/ x = (- y)%float.

(** A zero or a finite number whose exponent is at most [k]. *)
Definition finite_below (k : Z) (f : spec_float) : Prop :=
  match f with
  | S754_zero _ => True
  | S754_finite _ _ e => (e <= k)%Z
  | _ => False
  end.

(** The same of a primitive number. *)
Definition finite_at (k : Z) (x : float) : Prop := finite_below k (Prim2SF x).

(** ** Further notions used in the statements *)

(** The one request of each provider branch of [getDistanceMatrix] and of the
    OSRM branch of [optimizeRoute]. *)
Definition google_matrix_request (options : Options) (pts : list Point) : Request :=
  {| url := GoogleDistanceMatrix pts pts (googleApiKey options); init := None |}.

Definition ors_matrix_request (options : Options) (pts : list Point) : Request :=
  {| url := OrsMatrix (profile_of options);
     init := Some {| authorization := openRouteServiceApiKey options;
                     locations := map (fun p => (lng p, lat p)) pts |} |}.

Definition trip_request (options : Options) (pts : list Point) : Request :=
  {| url := OsrmTrip (profile_of options) pts
              ((if roundtrip_of options then []
                else ["roundtrip=false"; "source=first"; "destination=last"])
               ++ ["overview=full"]);
     init := None |}.

(** The names that the tests on [provider] know. *)
Definition provider_names : list string :=
  ["google"; "ors"; "openrouteservice"; "osrm"; "auto"].

(** The options with the profile [name]. *)
Definition with_profile (options : Options) (name : string) : Options :=
  {| provider := provider options; googleApiKey := googleApiKey options;
     openRouteServiceApiKey := openRouteServiceApiKey options;
     profile := JStr name; roundtrip := roundtrip options |}.

(** The scan of the heuristic takes the first of the nearest: every
    unvisited point before the one found, whose distance is a number, is
    strictly farther. *)
Definition first_found (rt : Runtime) (pts : list Point) (visited : list bool) (last : Point)
    (acc : option nat * float) : Prop :=
  match fst acc with
  | None => True
  | Some best =>
      forall j pj, (j < best)%nat -> visited !! j = Some false -> pts !! j = Some pj ->
        is_nan (_haversine rt last pj) = false ->
        (snd acc <? _haversine rt last pj)%float = true
  end.

(** The same of an order: the point placed after [cur] is strictly closer to
    [cur] than every point of a lower index that is still to be placed and
    whose distance to [cur] is a number. *)
Definition lowest_index_first (rt : Runtime) (pts : list Point) (order : list nat) : Prop :=
  forall k cur next pc pn,
    order !! k = Some cur -> order !! S k = Some next ->
    pts !! cur = Some pc -> pts !! next = Some pn ->
    forall j pj, (j < next)%nat -> j ∉ take (S k) order -> pts !! j = Some pj ->
      is_nan (_haversine rt pc pj) = false ->
      (_haversine rt pc pn <? _haversine rt pc pj)%float = true.

(** ** Coordinates in a URL *)

(** The string form of a number, [`${x}`], is the engine's. *)
Section Urls.
Variable NumberToString : float -> string.

(** [`${pt.lng},${pt.lat}`] *)
Definition _toOsrmCoord (pt : Point) : string :=
  (NumberToString (lng pt) ++ "," ++ NumberToString (lat pt))%string.

(** [`${pt.lat},${pt.lng}`] *)
Definition _toGoogleLatLng (pt : Point) : string :=
  (NumberToString (lat pt) ++ "," ++ NumberToString (lng pt))%string.

(** [strs.join(sep)] *)
Fixpoint join (sep : string) (strs : list string) : string :=
  match strs with
  | [] => ""
  | [s] => s
  | s :: rest => (s ++ sep ++ join sep rest)%string
  end.

(** [pts.map(_toOsrmCoord).join(";")] *)
Definition osrm_coords (pts : list Point) : string :=
  join ";" (map _toOsrmCoord pts).

End Urls.

(** The character [c] does not occur in [s]. *)
Fixpoint free_of (c : ascii) (s : string) : bool :=
  match s with
  | EmptyString => true
  | String d rest => negb (Ascii.eqb d c) && free_of c rest
  end.

(** ** Inputs for the examples *)

(** An engine for the examples, exact near the origin only: [sin x] is [x],
    [cos x] is [1], [atan2 y x] is [y / x]; strings and objects, which the
    examples do not use as numbers, are not numbers. *)
Definition small_angle : Runtime :=
  {| Math_sin := fun x => x;
     Math_cos := fun _ => 1%float;
     Math_atan2 := fun y x => (y / x)%float;
     StringToNumber := fun _ => nan;
     ObjectToNumber := fun _ => nan;
     Plus := fun _ _ => JUndefined |}.

(** [{ lat: x, lng: y }] *)
Definition latlng (x y : float) : Value := JObj [("lat", JNum x); ("lng", JNum y)].

(** Every request fails. *)
Definition offline : Network := fun _ _ => FetchRejected.

(** Every request gets the same JSON body. *)
Definition answers (data : Value) : Network :=
  fun _ _ => FetchResponse true 200 (Some data).

Definition with_keys (google ors : Value) : Options :=
  {| provider := JUndefined; googleApiKey := google; openRouteServiceApiKey := ors;
     profile := JUndefined; roundtrip := JUndefined |}.

Definition with_provider (name : string) : Options :=
  {| provider := JStr name; googleApiKey := JUndefined;
     openRouteServiceApiKey := JUndefined; profile := JUndefined;
     roundtrip := JUndefined |}.

(** A matrix response of OpenRouteService for two points. *)
Definition ors_matrix_response (d t : float) : Value :=
  JObj [("distances", JArr [JArr [JNum 0; JNum d]; JArr [JNum d; JNum 0]]);
        ("durations", JArr [JArr [JNum 0; JNum t]; JArr [JNum t; JNum 0]])].

(** OpenRouteService answers every request with the same matrix. *)
Definition ors_answers (d t : float) : Network :=
  fun _ _ => FetchResponse true 200 (Some (ors_matrix_response d t)).

(** A route response of OSRM. *)
Definition osrm_route_response (d t : float) : Value :=
  JObj [("code", JStr "Ok");
        ("routes", JArr [JObj [("distance", JNum d); ("duration", JNum t)]])].

(** Google is down; OpenRouteService and OSRM answer. *)
Definition google_down : Network :=
  fun _ req =>
    match provider_of req with
    | Google => FetchRejected
    | OpenRouteService => FetchResponse true 200 (Some (ors_matrix_response 1200 900))
    | OSRM => FetchResponse true 200 (Some (osrm_route_response 1100 80))
    end.

(** Elements of a Google distance matrix. *)
Definition google_ok (d t : float) : Value :=
  JObj [("status", JStr "OK");
        ("distance", JObj [("value", JNum d)]);
        ("duration", JObj [("value", JNum t)])].

Definition google_not_found : Value := JObj [("status", JStr "NOT_FOUND")].

Definition google_matrix_response (rows : list (list Value)) : Value :=
  JObj [("status", JStr "OK");
        ("rows", JArr (map (fun r => JObj [("elements", JArr r)]) rows))].

(** A directions response of Google: the first route, with or without its
    [waypoint_order]. *)
Definition google_directions_response (order : option (list float)) (d t : float) : Value :=
  JObj [("status", JStr "OK");
        ("routes",
         JArr [JObj ((match order with
                      | Some o => [("waypoint_order", JArr (map JNum o))]
                      | None => []
                      end)
                     ++ [("legs", JArr [JObj [("distance", JObj [("value", JNum d)]);
                                              ("duration", JObj [("value", JNum t)])]])])])].

(** A waypoint of an OSRM trip: its place in the trip and where OSRM put it,
    [[lon, lat]]. *)
Definition osrm_waypoint (index lon lat : float) : Value :=
  JObj [("waypoint_index", JNum index); ("location", JArr [JNum lon; JNum lat])].

Definition osrm_trip_response (ws : list Value) (d t : float) : Value :=
  JObj [("code", JStr "Ok");
        ("trips", JArr [JObj [("legs", JArr []); ("distance", JNum d); ("duration", JNum t)]]);
        ("waypoints", JArr ws)].

(** A string form for the examples: ["0"] for a zero, ["1"] for the rest. *)
Definition zero_or_one (x : float) : string := if is_zero x then "0" else "1".

(** * Point normalization *)

Lemma toPoint_latlng rt x y :
  _toPoint rt (latlng x y) = Some {| lat := x; lng := y |}.
Proof. reflexivity. Qed.

Lemma validatePoint_error rt p name e :
  _validatePoint rt p name = Rejected e -> e = InvalidPoint name.
Proof.
  unfold _validatePoint.
  destruct (_toPoint rt p) as [pt|]; [|congruence].
  destruct (is_nan (lat pt) || is_nan (lng pt)); congruence.
Qed.

Lemma validatePoint_resolved rt p name pt :
  _validatePoint rt p name = Resolved pt <->
  _toPoint rt p = Some pt /\ is_nan (lat pt) = false /\ is_nan (lng pt) = false.
Proof.
  unfold _validatePoint. split.
  - destruct (_toPoint rt p) as [q|]; [|discriminate].
    destruct (is_nan (lat q) || is_nan (lng q)) eqn:E; [discriminate|].
    intros [= ->]. apply orb_false_elim in E. tauto.
  - intros (-> & -> & ->). reflexivity.
Qed.

(** C3, as the code has it: normalization checks the shape of the input and
    that no coordinate is NaN, and nothing else.  Every pair of numbers that
    are not NaN, in range or not, is returned as the point, in each of the
    three accepted shapes; and an input is rejected only when it has none of
    the shapes or a coordinate that coerces to NaN. *)
Theorem validatePoint_checks_no_range (rt : Runtime) (name : PointName) (x y : float) :
  is_nan x = false -> is_nan y = false ->
  _validatePoint rt (latlng x y) name = Resolved {| lat := x; lng := y |}
  /\ _validatePoint rt (JArr [JNum x; JNum y]) name = Resolved {| lat := x; lng := y |}
  /\ _validatePoint rt (JObj [("latitude", JNum x); ("longitude", JNum y)]) name
     = Resolved {| lat := x; lng := y |}
  /\ forall p, is_resolved (_validatePoint rt p name) = false <->
               match _toPoint rt p with
               | None => True
               | Some pt => is_nan (lat pt) = true \/ is_nan (lng pt) = true
               end.
Proof.
  intros Hx Hy. repeat split.
  - apply validatePoint_resolved. auto.
  - apply validatePoint_resolved. auto.
  - apply validatePoint_resolved. auto.
  - unfold _validatePoint. destruct (_toPoint rt p) as [pt|]; [|trivial].
    destruct (is_nan (lat pt)); [auto|]. destruct (is_nan (lng pt)); [auto|]. discriminate.
  - unfold _validatePoint. destruct (_toPoint rt p) as [pt|]; [|reflexivity].
    intros [-> | ->]; [reflexivity|]. now rewrite orb_true_r.
Qed.

Lemma validatePoint_checks_no_range_witness :
  _validatePoint small_angle (latlng 120 (-200)) PointA
  = Resolved {| lat := 120; lng := (-200) |}.
Proof.
  apply (validatePoint_checks_no_range small_angle PointA 120 (-200)); reflexivity.
Defined.

(** C3, as stated, fails: a latitude of 91 is not rejected. *)
Lemma validatePoint_accepts_latitude_91 :
  _validatePoint small_angle (latlng 91 0) PointA = Resolved {| lat := 91; lng := 0 |}.
Proof. reflexivity. Qed.

(** * calculateDistance: which provider is asked, and what a failure does *)

Lemma attempt_errors_spec {A} (o : FetchOutcome) (parse : Value -> Outcome A) :
  attempt_errors o parse = negb (is_resolved (obind (response_json o) parse)).
Proof. destruct o as [|[|] status [v|]]; reflexivity. Qed.

Lemma fetch_errors_spec (o : FetchOutcome) :
  fetch_errors o = negb (is_resolved (response_json o)).
Proof. destruct o as [|[|] status [v|]]; reflexivity. Qed.

Section CalculateDistance.
Variable rt : Runtime.
Variable net : Network.
Variables (a b : Value) (options : Options) (A B : Point).
Hypothesis valid_a : _validatePoint rt a PointA = Resolved A.
Hypothesis valid_b : _validatePoint rt b PointB = Resolved B.

Lemma calculateDistance_google :
  google_selected options = true ->
  run (calculateDistance rt net a b options)
  = (obind (response_json (net 0%nat (google_request options A B))) google_pair,
     [google_request options A B]).
Proof.
  intros G. unfold run, calculateDistance, bind, lift, _fetchJson.
  rewrite valid_a, valid_b, G. cbn.
  fold (google_request options A B).
  destruct (response_json _); reflexivity.
Qed.

Lemma calculateDistance_ors :
  google_selected options = false -> ors_selected options = true ->
  run (calculateDistance rt net a b options)
  = match response_json (net 0%nat (ors_first_request options A B)) with
    | Resolved resp => (ors_pair rt A B resp, [ors_first_request options A B])
    | Rejected _ =>
        (obind (response_json (net 1%nat (ors_second_request options A B))) (ors_pair rt A B),
         [ors_first_request options A B; ors_second_request options A B])
    end.
Proof.
  intros G O. unfold run, calculateDistance, bind, lift, ors_request, catch, _fetchJson.
  rewrite valid_a, valid_b, G, O. cbn.
  fold (ors_init options A B). fold (ors_first_request options A B).
  fold (ors_second_request options A B).
  destruct (response_json (net 0%nat _)); [reflexivity|].
  destruct (response_json (net 1%nat _)); reflexivity.
Qed.

Lemma calculateDistance_osrm :
  google_selected options = false -> ors_selected options = false ->
  osrm_selected options = true ->
  run (calculateDistance rt net a b options)
  = (Resolved match obind (response_json (net 0%nat (osrm_request options A B))) osrm_pair with
              | Resolved res => res
              | Rejected _ => haversine_result rt A B
              end,
     [osrm_request options A B]).
Proof.
  intros G O S.
  unfold run, calculateDistance, bind, lift, catch, osrm_attempt, _fetchJson, ret.
  rewrite valid_a, valid_b, G, O, S. cbn.
  fold (osrm_request options A B).
  destruct (response_json _) as [data|]; [|reflexivity]. cbn.
  destruct (osrm_pair data); reflexivity.
Qed.

Lemma calculateDistance_no_provider :
  google_selected options = false -> ors_selected options = false ->
  osrm_selected options = false ->
  run (calculateDistance rt net a b options) = (Resolved (haversine_result rt A B), []).
Proof.
  intros G O S. unfold run, calculateDistance, bind, lift, ret.
  rewrite valid_a, valid_b, G, O, S. reflexivity.
Qed.

End CalculateDistance.







(** * A zero reported by OpenRouteService *)

Lemma calculateDistance_ors_request rt net a b options A B :
  _validatePoint rt a PointA = Resolved A ->
  _validatePoint rt b PointB = Resolved B ->
  google_selected options = false -> ors_selected options = true ->
  result (calculateDistance rt net a b options)
  = obind (fst (ors_request net (profile_of options) (ors_init options A B) []))
          (ors_pair rt A B).
Proof.
  intros Ha Hb G O. unfold result, run, calculateDistance, bind, lift.
  rewrite Ha, Hb, G, O. cbn -[ors_request ors_pair]. fold (ors_init options A B).
  destruct (ors_request net (profile_of options) (ors_init options A B) [])
    as [[resp|e] log]; reflexivity.
Qed.

Lemma getEstimatedTime_result rt net a b options :
  result (getEstimatedTime rt net a b options)
  = obind (result (calculateDistance rt net a b options))
          (fun res => Resolved (js_coalesce (match duration res with
                                             | Some t => t
                                             | None => JUndefined
                                             end) JNull)).
Proof.
  unfold result, run, getEstimatedTime, bind, ret.
  destruct (calculateDistance rt net a b options []) as [[res|e] log]; reflexivity.
Qed.



(** * getDistanceMatrix: the tables of the fallback *)

Lemma foldl_pairs {T K1 K2} (f : K1 -> K2 -> T -> T) (ks1 : list K1) (ks2 : list K2) (t : T) :
  foldl (fun t i => foldl (fun t j => f i j t) t ks2) t ks1
  = foldl (fun t ij => f (fst ij) (snd ij) t) t (list_prod ks1 ks2).
Proof.
  revert t. induction ks1 as [|i ks1 IH]; intros t; [reflexivity|].
  cbn [list_prod foldl]. rewrite foldl_app, <- IH. f_equal.
  generalize t. clear. induction ks2 as [|j ks2 IH]; intros t; [reflexivity|].
  cbn. apply IH.
Qed.

(** A fold of writes: a key keeps the value of its write, the other keys
    keep what they had. *)
Lemma foldl_writes {T K V} `{EqDecision K} (step : K -> T -> T) (inv : T -> Prop)
    (rd : T -> K -> option V) (val : K -> V) (keys : list K) :
  (forall k t, k ∈ keys -> inv t ->
     inv (step k t)
     /\ forall k', rd (step k t) k' = if decide (k' = k) then Some (val k) else rd t k') ->
  forall t, inv t ->
    inv (foldl (fun t k => step k t) t keys)
    /\ forall k', rd (foldl (fun t k => step k t) t keys) k'
                  = if decide (k' ∈ keys) then Some (val k') else rd t k'.
Proof.
  induction keys as [|k keys IH]; intros Hstep t Ht.
  - split; [exact Ht|]. intros k'. destruct (decide (k' ∈ [])) as [H|_]; [|reflexivity].
    now apply elem_of_nil in H.
  - destruct (Hstep k t) as [Hinv Hrd]; [apply elem_of_cons; auto|exact Ht|].
    destruct (IH (fun k' t' Hin => Hstep k' t' (proj2 (elem_of_cons _ _ _) (or_intror Hin)))
                 (step k t) Hinv) as [Hinv' Hrd'].
    split; [exact Hinv'|]. intros k'. cbn [foldl]. rewrite Hrd', Hrd.
    destruct (decide (k' ∈ keys)) as [Hin|Hin].
    + rewrite decide_True; [reflexivity|apply elem_of_cons; auto].
    + destruct (decide (k' = k)) as [->|Hne].
      * rewrite decide_True; [reflexivity|apply elem_of_cons; auto].
      * rewrite decide_False; [reflexivity|].
        intros H. apply elem_of_cons in H. tauto.
Qed.

Lemma square_set_cell n m i j v :
  square n m -> square n (set_cell m i j v).
Proof.
  intros [Hlen Hrows]. unfold set_cell. destruct (m !! i) as [row|] eqn:E; [|now split].
  split; [now rewrite length_insert|].
  intros i' row' H. destruct (decide (i = i')) as [->|Hne].
  - rewrite list_lookup_insert_eq in H by (apply lookup_lt_is_Some; eauto).
    injection H as <-. rewrite length_insert. eauto.
  - rewrite list_lookup_insert_ne in H by assumption. eauto.
Qed.

Lemma lookup2_set_cell n m i j v i' j' :
  square n m -> (i < n)%nat -> (j < n)%nat ->
  lookup2 (set_cell m i j v) i' j'
  = if decide ((i', j') = (i, j)) then Some v else lookup2 m i' j'.
Proof.
  intros [Hlen Hrows] Hi Hj. unfold set_cell, lookup2.
  destruct (m !! i) as [row|] eqn:E.
  2:{ apply lookup_ge_None in E. lia. }
  destruct (decide (i = i')) as [->|Hne].
  - rewrite list_lookup_insert_eq by lia. rewrite E.
    destruct (decide (j = j')) as [->|Hne].
    + rewrite decide_True by reflexivity.
      apply list_lookup_insert_eq. rewrite (Hrows _ _ E). exact Hj.
    + rewrite decide_False by congruence. now apply list_lookup_insert_ne.
  - rewrite list_lookup_insert_ne by assumption.
    rewrite decide_False by congruence. reflexivity.
Qed.

Section FallbackTables.
Variable rt : Runtime.
Variable pts : list Point.

Local Abbreviation n := (length pts).
Local Abbreviation both := (squares (length pts)).

Lemma haversine_cell_writes ij t :
  ij ∈ list_prod (seq 0 n) (seq 0 n) -> both t ->
  both (haversine_cell rt pts (fst ij) (snd ij) t)
  /\ (forall k, lookup2 (fst (haversine_cell rt pts (fst ij) (snd ij) t)) (fst k) (snd k)
                = if decide (k = ij)
                  then Some (haversine_distance_cell rt pts (fst ij) (snd ij))
                  else lookup2 (fst t) (fst k) (snd k))
  /\ (forall k, lookup2 (snd (haversine_cell rt pts (fst ij) (snd ij) t)) (fst k) (snd k)
                = if decide (k = ij)
                  then Some (haversine_duration_cell (fst ij) (snd ij))
                  else lookup2 (snd t) (fst k) (snd k)).
Proof.
  destruct ij as [i j], t as [ds ts]. intros Hin [Hd Ht]. cbn [fst snd] in *.
  apply list_elem_of_In, in_prod_iff in Hin. rewrite !in_seq in Hin.
  destruct Hin as [[_ Hi] [_ Hj]]. cbn in Hi, Hj.
  unfold haversine_cell, haversine_distance_cell, haversine_duration_cell.
  destruct (i =? j)%nat.
  - cbn [fst snd]. repeat split; try now apply square_set_cell.
    + intros [i' j']. now apply lookup2_set_cell with (n := n).
    + intros [i' j']. now apply lookup2_set_cell with (n := n).
  - destruct (pts !! i) as [a|] eqn:Ea.
    2:{ apply lookup_ge_None in Ea. lia. }
    destruct (pts !! j) as [b|] eqn:Eb.
    2:{ apply lookup_ge_None in Eb. lia. }
    cbn [fst snd]. repeat split; try now apply square_set_cell.
    + intros [i' j']. now apply lookup2_set_cell with (n := n).
    + intros [i' j']. now apply lookup2_set_cell with (n := n).
Qed.

Lemma square_empty : square n (replicate n (replicate n JNull)).
Proof.
  split; [apply length_replicate|].
  intros i row H. apply lookup_replicate in H as [-> _]. apply length_replicate.
Qed.

(** Every cell of the two tables holds what the loops wrote there. *)
Lemma haversine_tables_lookup i j :
  (i < n)%nat -> (j < n)%nat ->
  lookup2 (fst (haversine_tables rt pts)) i j = Some (haversine_distance_cell rt pts i j)
  /\ lookup2 (snd (haversine_tables rt pts)) i j = Some (haversine_duration_cell i j).
Proof.
  intros Hi Hj. unfold haversine_tables.
  rewrite (foldl_pairs (haversine_cell rt pts)).
  set (keys := list_prod (seq 0 n) (seq 0 n)).
  set (init := (replicate n (replicate n JNull), replicate n (replicate n JNull))).
  assert (Hinit : both init) by (split; apply square_empty).
  assert (Hin : (i, j) ∈ keys).
  { apply list_elem_of_In, in_prod_iff. rewrite !in_seq. lia. }
  split.
  - destruct (foldl_writes (fun ij t => haversine_cell rt pts (fst ij) (snd ij) t) both
                (fun t k => lookup2 (fst t) (fst k) (snd k))
                (fun k => haversine_distance_cell rt pts (fst k) (snd k)) keys) with (t := init)
      as [_ H]; [|exact Hinit|].
    + intros k t Hk Ht. destruct (haversine_cell_writes k t Hk Ht) as (? & ? & ?); auto.
    + specialize (H (i, j)). cbn [fst snd] in H. rewrite H. now rewrite decide_True.
  - destruct (foldl_writes (fun ij t => haversine_cell rt pts (fst ij) (snd ij) t) both
                (fun t k => lookup2 (snd t) (fst k) (snd k))
                (fun k => haversine_duration_cell (fst k) (snd k)) keys) with (t := init)
      as [_ H]; [|exact Hinit|].
    + intros k t Hk Ht. destruct (haversine_cell_writes k t Hk Ht) as (? & ? & ?); auto.
    + specialize (H (i, j)). cbn [fst snd] in H. rewrite H. now rewrite decide_True.
Qed.

Lemma cell_rows (m : list (list Value)) i j :
  cell (JArr (map JArr m)) i j = lookup2 m i j.
Proof.
  unfold cell, lookup2. change (map JArr m) with (JArr <$> m).
  rewrite list_lookup_fmap. destruct (m !! i); reflexivity.
Qed.

Lemma haversine_matrix_cells i j :
  (i < n)%nat -> (j < n)%nat ->
  cell (distances (haversine_matrix rt pts)) i j = Some (haversine_distance_cell rt pts i j)
  /\ cell (durations (haversine_matrix rt pts)) i j = Some (haversine_duration_cell i j).
Proof.
  intros Hi Hj. destruct (haversine_tables_lookup i j Hi Hj) as [Hd Ht].
  unfold haversine_matrix. destruct (haversine_tables rt pts) as [ds ts].
  cbn [distances durations]. now rewrite !cell_rows.
Qed.

End FallbackTables.

(** * getDistanceMatrix: which cells are numbers *)

Lemma getDistanceMatrix_fallback rt net points options pts :
  validate_points rt points = Resolved pts ->
  google_selected options = false -> ors_selected options = false ->
  osrm_selected options = false ->
  run (getDistanceMatrix rt net points options) = (Resolved (haversine_matrix rt pts), []).
Proof.
  intros Hp G O S. unfold run, getDistanceMatrix, bind, lift, ret.
  now rewrite Hp, G, O, S.
Qed.

Lemma getDistanceMatrix_osrm rt net points options pts :
  validate_points rt points = Resolved pts ->
  google_selected options = false -> ors_selected options = false ->
  osrm_selected options = true ->
  result (getDistanceMatrix rt net points options)
  = obind (response_json (net 0%nat (table_request options pts))) osrm_matrix.
Proof.
  intros Hp G O S. unfold result, run, getDistanceMatrix, bind, lift, _fetchJson.
  rewrite Hp, G, O, S. cbn. fold (table_request options pts).
  destruct (response_json _); reflexivity.
Qed.

Lemma google_element_not_ok elem st :
  get elem "status" = Resolved st -> is_str st "OK" = false ->
  google_element elem = Resolved (JNull, JNull).
Proof.
  intros Hst Hok. unfold google_element, and_then.
  destruct (truthy elem) eqn:E.
  - rewrite Hst. cbn. now rewrite Hok.
  - cbn. now rewrite E.
Qed.







(** * The order of binary64 numbers *)

Lemma compare_lt_positive (e1 e2 : Z) (m1 m2 : positive) :
  match (e1 ?= e2)%Z with
  | Lt => Lt
  | Gt => Gt
  | Eq => Pos.compare_cont Eq m1 m2
  end = Lt
  <-> (e1 < e2 \/ (e1 = e2 /\ (m1 < m2)%positive))%Z.
Proof.
  change (Pos.compare_cont Eq m1 m2) with (m1 ?= m2)%positive.
  destruct (Z.compare_spec e1 e2) as [H|H|H].
  - rewrite Pos.compare_lt_iff. split; intros H0; [right; split; assumption|].
    destruct H0 as [?|[_ ?]]; [lia|assumption].
  - split; intros; [left; assumption|reflexivity].
  - split; intros H0; [discriminate|]. destruct H0 as [?|[? _]]; lia.
Qed.

Lemma compare_lt_negative (e1 e2 : Z) (m1 m2 : positive) :
  match (e1 ?= e2)%Z with
  | Lt => Gt
  | Gt => Lt
  | Eq => CompOpp (Pos.compare_cont Eq m1 m2)
  end = Lt
  <-> (e2 < e1 \/ (e1 = e2 /\ (m2 < m1)%positive))%Z.
Proof.
  change (Pos.compare_cont Eq m1 m2) with (m1 ?= m2)%positive.
  destruct (Z.compare_spec e1 e2) as [H|H|H].
  - rewrite <- Pos.compare_antisym, Pos.compare_lt_iff.
    split; intros H0; [right; split; assumption|].
    destruct H0 as [?|[_ ?]]; [lia|assumption].
  - split; intros H0; [discriminate|]. destruct H0 as [?|[? _]]; lia.
  - split; intros; [left; assumption|reflexivity].
Qed.

Lemma SFcompare_Lt_trans x y z :
  SFcompare x y = Some Lt -> SFcompare y z = Some Lt -> SFcompare x z = Some Lt.
Proof.
  destruct x as [[|]|[|]| |[|] m1 e1], y as [[|]|[|]| |[|] m2 e2],
           z as [[|]|[|]| |[|] m3 e3];
    cbn; try congruence; intros [= H1] [= H2]; f_equal;
    rewrite ?compare_lt_positive, ?compare_lt_negative in *; lia.
Qed.

Lemma SFcompare_Lt_irrefl x : SFcompare x x <> Some Lt.
Proof.
  destruct x as [[|]|[|]| |[|] m e]; cbn; try congruence; intros [= H];
    rewrite ?compare_lt_positive, ?compare_lt_negative in *; lia.
Qed.

Lemma SFcompare_Lt_infinity x y :
  SFcompare x y = Some Lt -> SFcompare x (S754_infinity false) = Some Lt.
Proof.
  destruct x as [[|]|[|]| |[|] m1 e1], y as [[|]|[|]| |[|] m2 e2]; cbn; congruence.
Qed.

Lemma ltb_trans (x y z : float) :
  (x <? y)%float = true -> (y <? z)%float = true -> (x <? z)%float = true.
Proof.
  rewrite !ltb_spec. unfold SFltb.
  destruct (SFcompare (Prim2SF x) (Prim2SF y)) as [[| |]|] eqn:E1; try discriminate.
  destruct (SFcompare (Prim2SF y) (Prim2SF z)) as [[| |]|] eqn:E2; try discriminate.
  now rewrite (SFcompare_Lt_trans _ _ _ E1 E2).
Qed.

Lemma ltb_irrefl (x : float) : (x <? x)%float = false.
Proof.
  rewrite ltb_spec. unfold SFltb.
  destruct (SFcompare (Prim2SF x) (Prim2SF x)) as [[| |]|] eqn:E; try reflexivity.
  now apply SFcompare_Lt_irrefl in E.
Qed.

Lemma ltb_infinity (x y : float) :
  (x <? y)%float = true -> (x <? infinity)%float = true.
Proof.
  rewrite !ltb_spec. unfold SFltb.
  destruct (SFcompare (Prim2SF x) (Prim2SF y)) as [[| |]|] eqn:E; try discriminate.
  intros _. change (Prim2SF infinity) with (S754_infinity false).
  now rewrite (SFcompare_Lt_infinity _ _ E).
Qed.

Lemma ltb_asym (x y : float) : (x <? y)%float = true -> (y <? x)%float = false.
Proof.
  intros H. destruct (y <? x)%float eqn:E; [|reflexivity].
  pose proof (ltb_trans _ _ _ H E) as C. now rewrite ltb_irrefl in C.
Qed.

(** Nothing is below a value that something else is not below but that is
    itself above. *)
Lemma ltb_not_below (x y z : float) :
  (x <? y)%float = false -> (z <? y)%float = true -> (x <? z)%float = false.
Proof.
  intros H1 H2. destruct (x <? z)%float eqn:E; [|reflexivity].
  now rewrite (ltb_trans _ _ _ E H2) in H1.
Qed.

(** * The nearest-neighbour loop *)

Section NearestNeighbour.
Variable rt : Runtime.
Variable pts : list Point.

Local Abbreviation n := (length pts).

Local Abbreviation scanned := (scan_knows rt pts).

Lemma scanned_step visited last seen acc j :
  scanned visited last seen acc ->
  scanned visited last (fun j' => seen j' \/ j' = j) (scan_step rt pts visited last acc j).
Proof.
  unfold scan_step. intros H.
  destruct (visited !! j) as [[|]|] eqn:Ev; cycle 1.
  - destruct (pts !! j) as [pj|] eqn:Ep.
    + destruct (_haversine rt last pj <? snd acc)%float eqn:Ed.
      * destruct acc as [[best|] d]; cbn [snd] in Ed; cbn.
        -- destruct H as (pb & _ & _ & -> & Hinf & Hmin).
           exists pj. repeat split; try assumption.
           ++ now apply ltb_trans with (_haversine rt last pb).
           ++ intros j' pj' [Hs| ->] Hv Hp.
              ** apply ltb_not_below with (_haversine rt last pb); eauto.
              ** rewrite Ep in Hp. injection Hp as <-. apply ltb_irrefl.
        -- destruct H as [-> Hmin].
           exists pj. repeat split; try assumption.
           intros j' pj' [Hs| ->] Hv Hp.
           ++ apply ltb_not_below with infinity; eauto.
           ++ rewrite Ep in Hp. injection Hp as <-. apply ltb_irrefl.
      * destruct acc as [[best|] d]; cbn [snd] in Ed; cbn.
        -- destruct H as (pb & ? & ? & ? & ? & Hmin).
           exists pb. repeat split; try assumption.
           intros j' pj' [Hs| ->] Hv Hp; [eauto|].
           rewrite Ep in Hp. now injection Hp as <-.
        -- destruct H as [-> Hmin]. split; [reflexivity|].
           intros j' pj' [Hs| ->] Hv Hp; [eauto|].
           rewrite Ep in Hp. now injection Hp as <-.
    + destruct acc as [[best|] d]; cbn.
      * destruct H as (pb & ? & ? & ? & ? & Hmin).
        exists pb. repeat split; try assumption.
        intros j' pj' [Hs| ->] Hv Hp; [eauto|congruence].
      * destruct H as [-> Hmin]. split; [reflexivity|].
        intros j' pj' [Hs| ->] Hv Hp; [eauto|congruence].
  - destruct acc as [[best|] d]; cbn.
    + destruct H as (pb & ? & ? & ? & ? & Hmin).
      exists pb. repeat split; try assumption.
      intros j' pj' [Hs| ->] Hv Hp; [eauto|congruence].
    + destruct H as [-> Hmin]. split; [reflexivity|].
      intros j' pj' [Hs| ->] Hv Hp; [eauto|congruence].
  - destruct acc as [[best|] d]; cbn.
    + destruct H as (pb & ? & ? & ? & ? & Hmin).
      exists pb. repeat split; try assumption.
      intros j' pj' [Hs| ->] Hv Hp; [eauto|congruence].
    + destruct H as [-> Hmin]. split; [reflexivity|].
      intros j' pj' [Hs| ->] Hv Hp; [eauto|congruence].
Qed.

Lemma scanned_weaken visited last (seen seen' : nat -> Prop) acc :
  (forall j, seen' j -> seen j) ->
  scanned visited last seen acc -> scanned visited last seen' acc.
Proof.
  intros Hsub. destruct acc as [[best|] d]; cbn.
  - intros (pb & ? & ? & ? & ? & Hmin). exists pb. repeat split; eauto.
  - intros [-> Hmin]. split; eauto.
Qed.

Lemma scanned_fold visited last js seen acc :
  scanned visited last seen acc ->
  scanned visited last (fun j => seen j \/ j ∈ js)
          (foldl (scan_step rt pts visited last) acc js).
Proof.
  revert seen acc. induction js as [|j js IH]; intros seen acc H; cbn [foldl].
  - apply scanned_weaken with seen; [|exact H].
    intros j [?|Hin]; [assumption|]. now apply elem_of_nil in Hin.
  - apply scanned_weaken with (fun j' => (seen j' \/ j' = j) \/ j' ∈ js).
    + intros j' [?|Hin]; [tauto|]. apply elem_of_cons in Hin. tauto.
    + apply IH, scanned_step, H.
Qed.

(** The scan returns the first unvisited point that no unvisited point is
    strictly closer than, or nothing when no distance is below [Infinity]. *)
Lemma scan_spec visited last :
  scanned visited last (fun j => (j < n)%nat) (scan rt pts visited last).
Proof.
  unfold scan.
  apply scanned_weaken with (fun j => False \/ j ∈ seq 0 (length pts)).
  2:{ apply scanned_fold. cbn. split; [reflexivity|]. intros ? ? []. }
  intros j Hj. right. apply elem_of_seq. lia.
Qed.

Local Abbreviation tracked := (in_step (length pts)).

Lemma tracked_unvisited visited order j :
  tracked visited order -> visited !! j = Some false -> (j < n)%nat /\ j ∉ order.
Proof.
  intros (Hlen & _ & _ & Hv) Hj.
  assert (Hlt : (j < n)%nat) by (rewrite <- Hlen; apply lookup_lt_is_Some; eauto).
  split; [exact Hlt|]. rewrite (Hv j Hlt) in Hj. injection Hj as Hj.
  now apply bool_decide_eq_false in Hj.
Qed.

Lemma tracked_push visited order best :
  tracked visited order -> visited !! best = Some false ->
  tracked (<[best := true]> visited) (order ++ [best]).
Proof.
  intros T Hb. destruct (tracked_unvisited _ _ _ T Hb) as [Hlt Hnot].
  destruct T as (Hlen & Hnd & Hin & Hv). repeat split.
  - now rewrite length_insert.
  - apply NoDup_app. repeat split; [assumption| |apply NoDup_singleton].
    intros x Hx Hx'. apply list_elem_of_singleton in Hx'. now subst.
  - intros j Hj. apply elem_of_app in Hj as [Hj|Hj]; [auto|].
    apply list_elem_of_singleton in Hj. now subst.
  - intros j Hj. destruct (decide (best = j)) as [->|Hne].
    + rewrite list_lookup_insert_eq by lia.
      rewrite bool_decide_eq_true_2; [reflexivity|].
      apply elem_of_app. right. now apply list_elem_of_singleton.
    + rewrite list_lookup_insert_ne by assumption. rewrite (Hv j Hj). f_equal.
      apply bool_decide_ext. rewrite elem_of_app, list_elem_of_singleton. split; [tauto|].
      intros [?| ->]; [assumption|congruence].
Qed.

Lemma tracked_start :
  (0 < n)%nat -> tracked (<[0%nat := true]> (replicate n false)) [0%nat].
Proof.
  intros Hn. repeat split.
  - now rewrite length_insert, length_replicate.
  - apply NoDup_singleton.
  - intros j Hj. apply list_elem_of_singleton in Hj. now subst.
  - intros j Hj. destruct (decide (0%nat = j)) as [<-|Hne].
    + rewrite list_lookup_insert_eq by (rewrite length_replicate; lia).
      rewrite bool_decide_eq_true_2; [reflexivity|now apply list_elem_of_singleton].
    + rewrite list_lookup_insert_ne by assumption.
      rewrite lookup_replicate_2 by assumption.
      rewrite bool_decide_eq_false_2; [reflexivity|].
      rewrite list_elem_of_singleton. congruence.
Qed.

Lemma greedy_push visited order l pl best :
  tracked visited order -> greedy rt pts order ->
  last order = Some l -> pts !! l = Some pl ->
  fst (scan rt pts visited pl) = Some best ->
  visited !! best = Some false /\ greedy rt pts (order ++ [best]).
Proof.
  intros T G Hl Hpl Hs. pose proof (scan_spec visited pl) as Sp.
  destruct (scan rt pts visited pl) as [[b|] d]; [|discriminate].
  cbn in Hs. injection Hs as ->. destruct Sp as (pb & Hvb & Hpb & -> & _ & Hmin).
  split; [exact Hvb|].
  destruct (tracked_unvisited _ _ _ T Hvb) as [_ Hnot].
  intros k cur next pc pn Hk HSk Hc Hn.
  destruct (decide (S k < length order)%nat) as [Hlt|Hge].
  - rewrite lookup_app_l in Hk by lia. rewrite lookup_app_l in HSk by lia.
    rewrite take_app_le by lia. now apply (G k cur next pc pn).
  - assert (Hklt : (k < length order)%nat).
    { apply lookup_lt_Some in HSk. rewrite length_app in HSk. cbn in HSk.
      destruct (decide (k < length order)%nat); [assumption|].
      rewrite lookup_app_r in Hk by lia. apply lookup_lt_Some in Hk. cbn in Hk. lia. }
    assert (HS : S k = length order) by lia.
    rewrite lookup_app_l in Hk by lia.
    rewrite HS, list_lookup_middle in HSk by reflexivity. injection HSk as <-.
    rewrite last_lookup in Hl. replace (pred (length order)) with k in Hl by lia.
    rewrite Hk in Hl. injection Hl as ->.
    rewrite Hpl in Hc. injection Hc as <-. rewrite Hpb in Hn. injection Hn as <-.
    rewrite HS, take_app_length. split; [exact Hnot|].
    intros j pj Hj Hpj.
    assert (Hjn : (j < n)%nat) by (apply lookup_lt_Some in Hpj; exact Hpj).
    destruct T as (Hlen & _ & _ & Hv).
    apply Hmin with j; [exact Hjn| |exact Hpj].
    rewrite (Hv j Hjn). now rewrite bool_decide_eq_false_2.
Qed.

Lemma finite_hops_spec i j a b :
  finite_hops rt pts = true -> pts !! i = Some a -> pts !! j = Some b ->
  (_haversine rt a b <? infinity)%float = true.
Proof.
  unfold finite_hops. rewrite forallb_forall. intros H Ha Hb.
  specialize (H a). rewrite forallb_forall in H.
  apply H; apply list_elem_of_In; eapply list_elem_of_lookup_2; eassumption.
Qed.

(** As long as the order is shorter than the list, a point is left. *)
Lemma tracked_leaves_one visited order :
  tracked visited order -> (length order < n)%nat ->
  exists j, (j < n)%nat /\ j ∉ order.
Proof.
  intros (_ & Hnd & Hin & _) Hlen.
  destruct (Forall_Exists_dec (fun j => j ∈ order) (fun j => j ∉ order)
              (fun j => decide (j ∈ order)) (seq 0 n)) as [Hall|Hex].
  - exfalso. rewrite Forall_forall in Hall.
    assert (Hsub : seq 0 n ⊆+ order) by (apply NoDup_submseteq; [apply NoDup_seq|exact Hall]).
    apply submseteq_length in Hsub. rewrite length_seq in Hsub. lia.
  - apply Exists_exists in Hex as (j & Hj & Hnot). exists j. split; [|exact Hnot].
    apply elem_of_seq in Hj. lia.
Qed.

Lemma nearest_loop_spec k : forall visited order,
  tracked visited order -> greedy rt pts order -> order <> [] ->
  (exists ext, nearest_loop rt k pts visited order = order ++ ext)
  /\ NoDup (nearest_loop rt k pts visited order)
  /\ (forall j, j ∈ nearest_loop rt k pts visited order -> (j < n)%nat)
  /\ greedy rt pts (nearest_loop rt k pts visited order)
  /\ (finite_hops rt pts = true -> (length order + k <= n)%nat ->
      length (nearest_loop rt k pts visited order) = (length order + k)%nat).
Proof.
  induction k as [|k IH]; intros visited order T G Hne; cbn [nearest_loop].
  - destruct T as (? & ? & ? & ?).
    refine (conj _ (conj _ (conj _ (conj _ _)))); try assumption.
    + exists []. now rewrite app_nil_r.
    + intros. lia.
  - destruct (last order) as [l|] eqn:Hl.
    2:{ apply last_None in Hl. contradiction. }
    assert (Hln : (l < n)%nat).
    { destruct T as (_ & _ & Hin & _). apply Hin. now apply last_Some_elem_of. }
    destruct (pts !! l) as [pl|] eqn:Hpl.
    2:{ apply lookup_ge_None in Hpl. lia. }
    cbn [mbind option_bind]. rewrite Hpl.
    destruct (fst (scan rt pts visited pl)) as [best|] eqn:Hs.
    + destruct (greedy_push visited order l pl best T G Hl Hpl Hs) as [Hvb G'].
      pose proof (tracked_push visited order best T Hvb) as T'.
      destruct (IH (<[best := true]> visited) (order ++ [best]) T' G')
        as ((ext & Hext) & Hnd & Hin & Hg & Hlen).
      { now destruct order. }
      refine (conj _ (conj _ (conj _ (conj _ _)))); try assumption.
      * exists (best :: ext). rewrite Hext, <- app_assoc. reflexivity.
      * intros F Hk. rewrite Hlen; [|exact F|]; rewrite length_app; cbn; lia.
    + destruct T as (Hlen & Hnd & Hin & Hv).
      refine (conj _ (conj _ (conj _ (conj _ _)))); try assumption.
      * exists []. now rewrite app_nil_r.
      * intros F Hk. exfalso.
        destruct (tracked_leaves_one visited order) as (j & Hj & Hnot);
          [repeat split; assumption|lia|].
        destruct (lookup_lt_is_Some_2 pts j Hj) as [pj Hpj].
        pose proof (scan_spec visited pl) as Sp.
        destruct (scan rt pts visited pl) as [[b|] d]; [discriminate|].
        destruct Sp as [_ Hmin].
        specialize (Hmin j pj Hj).
        rewrite (Hv j Hj), bool_decide_eq_false_2 in Hmin by assumption.
        specialize (Hmin eq_refl Hpj).
        rewrite (finite_hops_spec l j pl pj F Hpl Hpj) in Hmin. discriminate.
Qed.

Lemma greedy_start : greedy rt pts [0%nat].
Proof. intros k cur next pc pn _ H. destruct k; discriminate. Qed.

(** The order of the heuristic: it starts at index 0, holds no index twice
    and none out of range, and is greedy. *)
Lemma naiveOrder_spec :
  (0 < n)%nat ->
  (exists rest, naiveOrder rt pts = 0%nat :: rest)
  /\ NoDup (naiveOrder rt pts)
  /\ (forall j, j ∈ naiveOrder rt pts -> (j < n)%nat)
  /\ greedy rt pts (naiveOrder rt pts).
Proof.
  intros Hn. unfold naiveOrder.
  destruct (nearest_loop_spec (n - 1) _ _ (tracked_start Hn) greedy_start)
    as ((ext & ->) & ? & ? & ? & _); [discriminate|].
  refine (conj _ (conj _ (conj _ _))); try assumption. now exists ext.
Qed.

(** When every distance is a number below [Infinity] the loop never stops
    early, and the order holds every index once. *)
Lemma naiveOrder_permutation :
  (0 < n)%nat -> finite_hops rt pts = true ->
  naiveOrder rt pts ≡ₚ seq 0 n.
Proof.
  intros Hn F. unfold naiveOrder.
  destruct (nearest_loop_spec (n - 1) _ _ (tracked_start Hn) greedy_start)
    as (_ & Hnd & Hin & _ & Hlen); [discriminate|].
  specialize (Hlen F). cbn [length] in Hlen.
  apply submseteq_length_Permutation.
  - apply NoDup_submseteq; [exact Hnd|]. intros j Hj. apply elem_of_seq. specialize (Hin j Hj). lia.
  - rewrite length_seq, Hlen; lia.
Qed.

Lemma lookup_all : map (pts !!.) (seq 0 n) = map Some pts.
Proof.
  apply list_eq. intros i. change (map ?f ?l) with (f <$> l).
  rewrite !list_lookup_fmap. destruct (decide (i < n)%nat) as [Hi|Hi].
  - rewrite lookup_seq_lt by assumption. cbn.
    destruct (lookup_lt_is_Some_2 pts i Hi) as [p Hp]. now rewrite Hp.
  - rewrite lookup_seq_ge by lia.
    rewrite (lookup_ge_None_2 pts i) by lia. reflexivity.
Qed.

Lemma naive_route_permutation :
  (0 < n)%nat -> finite_hops rt pts = true ->
  waypoints (naive_route rt pts) ≡ₚ map Some pts.
Proof.
  intros Hn F. unfold naive_route. cbn [waypoints]. rewrite <- lookup_all.
  apply Permutation_map, naiveOrder_permutation; assumption.
Qed.

End NearestNeighbour.

Lemma naiveOrder_three rt (A B C : Point) :
  (_haversine rt A B <? _haversine rt A C)%float = true ->
  naiveOrder rt [A; B; C]
  = if (_haversine rt B C <? infinity)%float then [0; 1; 2]%nat else [0; 1]%nat.
Proof.
  intros H.
  pose proof (ltb_infinity _ _ H) as Hinf. pose proof (ltb_asym _ _ H) as Hasym.
  unfold naiveOrder, scan. cbn -[_haversine].
  unfold scan, scan_step. cbn -[_haversine]. rewrite Hinf. cbn -[_haversine].
  rewrite Hasym. cbn -[_haversine].
  unfold scan, scan_step. cbn -[_haversine].
  destruct (_haversine rt B C <? infinity)%float; reflexivity.
Qed.

(** Two points: the second is appended when its distance from the first is
    below [Infinity], and only then. *)
Lemma naiveOrder_two rt (A B : Point) :
  naiveOrder rt [A; B]
  = if (_haversine rt A B <? infinity)%float then [0; 1]%nat else [0]%nat.
Proof.
  unfold naiveOrder, scan. cbn -[_haversine].
  unfold scan, scan_step. cbn -[_haversine].
  destruct (_haversine rt A B <? infinity)%float; reflexivity.
Qed.

Lemma validate_from_length rt l : forall i pts,
  validate_from rt i l = Resolved pts -> length pts = length l.
Proof.
  induction l as [|p l IH]; intros i pts; cbn.
  - now intros [= <-].
  - destruct (_validatePoint rt p (PointsAt i)) as [pt|]; [|discriminate]. cbn.
    destruct (validate_from rt (S i) l) as [rest|] eqn:E; [|discriminate]. cbn.
    intros [= <-]. cbn. f_equal. now apply (IH (S i)).
Qed.

Lemma validate_points_length rt points pts :
  validate_points rt points = Resolved pts -> (2 <= length pts)%nat.
Proof.
  unfold validate_points. destruct points as [| | | | |l|]; try discriminate.
  destruct (length l <? 2)%nat eqn:E; [discriminate|].
  intros H. apply validate_from_length in H. apply Nat.ltb_ge in E. lia.
Qed.

Lemma optimizeRoute_naive rt net points options pts :
  validate_points rt points = Resolved pts ->
  google_selected options = false -> osrm_selected options = false ->
  run (optimizeRoute rt net points options) = (Resolved (naive_route rt pts), []).
Proof.
  intros Hp G S. unfold run, optimizeRoute, bind, lift, ret. now rewrite Hp, G, S.
Qed.




(** * optimizeRoute: the waypoints of the Google branch *)

Lemma optimizeRoute_google rt net points options pts :
  validate_points rt points = Resolved pts ->
  google_selected options = true ->
  exists req, provider_of req = Google
    /\ run (optimizeRoute rt net points options)
       = (obind (response_json (net 0%nat req)) (google_route rt pts), [req]).
Proof.
  intros Hp G. pose proof (validate_points_length rt points pts Hp) as Hlen.
  destruct (lookup_lt_is_Some_2 pts 0) as [p0 H0]; [lia|].
  destruct (lookup_lt_is_Some_2 pts 1) as [p1 H1]; [lia|].
  destruct (lookup_lt_is_Some_2 pts (length pts - 1)) as [pl Hl]; [lia|].
  unfold run, optimizeRoute, bind, lift, _fetchJson, point_at. rewrite Hp, G, H0.
  destruct (2 <? length pts)%nat; rewrite ?Hl, ?H1.
  - exists {| url := GoogleDirections p0 pl (take (length pts - 2) (drop 1 pts))
                                      (googleApiKey options);
              init := None |}.
    split; [reflexivity|]. cbn -[google_route take drop].
    destruct (response_json _); reflexivity.
  - exists {| url := GoogleDirections p0 p1 [] (googleApiKey options); init := None |}.
    split; [reflexivity|]. cbn -[google_route take drop].
    destruct (response_json _); reflexivity.
Qed.

(** What the Google branch returns as waypoints, read off a resolved route. *)
Lemma google_route_waypoints rt pts data r :
  google_route rt pts data = Resolved r ->
  if (2 <? length pts)%nat
  then exists idxs, iterate (waypointsOrder r) = Resolved idxs
         /\ waypoints r = [pts !! 0%nat]
                          ++ map (fun idx => element_at pts (js_add rt (JNum 1) idx)) idxs
                          ++ [pts !! (length pts - 1)%nat]
  else waypoints r = [pts !! 0%nat; pts !! 1%nat].
Proof.
  unfold google_route.
  destruct (get data "status") as [status|]; [|discriminate]. cbn [obind].
  destruct (negb (is_str status "OK")); [discriminate|].
  destruct (get data "routes") as [routes|]; [|discriminate]. cbn [obind].
  destruct (and_then routes (get_at routes 0)) as [route|]; [|discriminate]. cbn [obind].
  destruct (and_then route (get route "waypoint_order")) as [has|]; [|discriminate].
  cbn [obind].
  destruct (if truthy has then get route "waypoint_order" else Resolved (JArr []))
    as [order|]; [|discriminate]. cbn [obind].
  destruct (2 <? length pts)%nat.
  - destruct (iterate order) as [idxs|] eqn:Hi; [|discriminate]. cbn [obind].
    destruct (legs_total rt "distance" route) as [dist|]; [|discriminate]. cbn [obind].
    destruct (legs_total rt "duration" route) as [dur|]; [|discriminate]. cbn [obind].
    intros [= <-]. cbn [waypoints waypointsOrder]. now exists idxs.
  - cbn [obind].
    destruct (legs_total rt "distance" route) as [dist|]; [|discriminate]. cbn [obind].
    destruct (legs_total rt "duration" route) as [dur|]; [|discriminate]. cbn [obind].
    now intros [= <-].
Qed.

Lemma seq_ends n : (2 <= n)%nat -> seq 0 n = 0%nat :: seq 1 (n - 2) ++ [(n - 1)%nat].
Proof.
  intros Hn. replace n with (1 + ((n - 2) + 1))%nat at 1 by lia.
  rewrite seq_app, seq_app. cbn [seq app]. repeat f_equal. lia.
Qed.

Lemma google_route_permutation rt pts data r :
  (2 <= length pts)%nat ->
  google_route rt pts data = Resolved r ->
  (length pts = 2%nat
   \/ exists idxs ks,
        iterate (waypointsOrder r) = Resolved idxs
        /\ map (fun idx => element_at pts (js_add rt (JNum 1) idx)) idxs = map (pts !!.) ks
        /\ ks ≡ₚ seq 1 (length pts - 2)) ->
  waypoints r ≡ₚ map Some pts.
Proof.
  intros Hlen Hr Horder. apply google_route_waypoints in Hr.
  destruct (2 <? length pts)%nat eqn:E.
  - apply Nat.ltb_lt in E. destruct Hr as (idxs & Hi & ->).
    destruct Horder as [?|(idxs' & ks & Hi' & Hmap & Hperm)]; [lia|].
    rewrite Hi in Hi'. injection Hi' as <-. rewrite Hmap.
    rewrite <- (lookup_all pts), (seq_ends (length pts) Hlen).
    cbn [map app]. constructor. rewrite map_app. cbn [map].
    apply Permutation_app_tail, Permutation_map, Hperm.
  - apply Nat.ltb_ge in E. rewrite Hr.
    destruct pts as [|p0 [|p1 [|p2 rest]]]; cbn in *; try lia. reflexivity.
Qed.




(** The Google branch at a response whose [waypoint_order] is a permutation:
    the two interior points are exchanged, the ends stay. *)
Example optimizeRoute_google_reorders :
  result (optimizeRoute small_angle (answers (google_directions_response (Some [1; 0]%float) 300 40))
            (JArr [latlng 0 0; latlng 0.001 0.001; latlng 0.002 0; latlng 0.003 0])
            (with_keys (JStr "key") JUndefined))
  = Resolved {| waypoints := [Some {| lat := 0; lng := 0 |};
                              Some {| lat := 0.002; lng := 0 |};
                              Some {| lat := 0.001; lng := 0.001 |};
                              Some {| lat := 0.003; lng := 0 |}];
                waypointsOrder := JArr [JNum 1; JNum 0];
                route_distance := JNum 300; route_duration := JNum 40;
                route_provider := "google" |}.
Proof. vm_compute. reflexivity. Qed.

(** * optimizeRoute: the waypoints of the OSRM branch *)

(** C7 fails on the OSRM branch: the waypoints are built from the locations
    that OSRM reports, not from the points of the caller.  With [roundtrip]
    left out, the first waypoint is OSRM's location of the first point. *)
Lemma optimizeRoute_osrm_returns_provider_locations :
  result (optimizeRoute small_angle
            (answers (osrm_trip_response [osrm_waypoint 0 0.5 0.25; osrm_waypoint 1 1.5 1.25]
                                         157 20))
            (JArr [latlng 0 0; latlng 1 1]) no_options)
  = Resolved {| waypoints := [Some {| lat := 0.25; lng := 0.5 |};
                              Some {| lat := 1.25; lng := 1.5 |}];
                waypointsOrder := JNull;
                route_distance := JNum 157; route_duration := JNum 20;
                route_provider := "osrm" |}.
Proof. vm_compute. reflexivity. Qed.

(** * Binary64 arithmetic: signs *)

Lemma binary_round_aux_opp s m e l :
  binary_round_aux prec emax (negb s) m e l = SFopp (binary_round_aux prec emax s m e l).
Proof.
  unfold binary_round_aux.
  destruct (shr_fexp prec emax m e l) as [mrs' e'].
  destruct (shr_fexp prec emax _ e' loc_Exact) as [mrs'' e''].
  destruct (shr_m mrs''); try reflexivity.
  destruct (e'' <=? emax - prec)%Z; reflexivity.
Qed.

Lemma binary_round_opp s m e :
  binary_round prec emax (negb s) m e = SFopp (binary_round prec emax s m e).
Proof.
  unfold binary_round. destruct (shl_align m e _) as [mz ez]. apply binary_round_aux_opp.
Qed.

Lemma SFopp_involutive x : SFopp (SFopp x) = x.
Proof. destruct x as [[|]|[|]| |[|] m e]; reflexivity. Qed.

Lemma SFmul_comm x y : SF64mul x y = SF64mul y x.
Proof.
  destruct x as [[|]|[|]| |[|] m1 e1], y as [[|]|[|]| |[|] m2 e2]; try reflexivity;
    cbn; now rewrite Pos.mul_comm, Z.add_comm.
Qed.

Lemma SFmul_opp_l x y : SF64mul (SFopp x) y = SFopp (SF64mul x y).
Proof.
  destruct x as [[|]|[|]| |sx m1 e1], y as [[|]|[|]| |sy m2 e2]; try reflexivity;
    try (destruct sx; reflexivity); try (destruct sy; reflexivity);
    try (destruct sx, sy; reflexivity).
  cbn. rewrite <- binary_round_aux_opp. now destruct sx, sy.
Qed.

Lemma SFdiv_opp_l x y : SF64div (SFopp x) y = SFopp (SF64div x y).
Proof.
  destruct x as [[|]|[|]| |sx m1 e1], y as [[|]|[|]| |sy m2 e2]; try reflexivity;
    try (destruct sx; reflexivity); try (destruct sy; reflexivity);
    try (destruct sx, sy; reflexivity).
  cbn. destruct (SFdiv_core_binary prec emax (Z.pos m1) e1 (Z.pos m2) e2) as [[mz ez] lz].
  rewrite <- binary_round_aux_opp. now destruct sx, sy.
Qed.

Lemma binary_normalize_opp z e :
  z <> 0%Z ->
  binary_normalize prec emax (- z) e false = SFopp (binary_normalize prec emax z e false).
Proof.
  destruct z as [|p|p]; [congruence| |]; intros _; cbn.
  - apply (binary_round_opp false).
  - now rewrite <- (binary_round_opp true).
Qed.

Lemma SFsub_swap x y :
  SF64sub y x = SFopp (SF64sub x y) \/ SF64sub y x = SF64sub x y.
Proof.
  destruct x as [[|]|[|]| |sx m1 e1], y as [[|]|[|]| |sy m2 e2]; cbn; auto;
    try (destruct sx; cbn; auto; fail); try (destruct sy; cbn; auto; fail).
  rewrite (Z.min_comm e2 e1).
  set (ez := Z.min e1 e2).
  set (A := cond_Zopp sx (Z.pos (fst (shl_align m1 e1 ez)))).
  set (B := cond_Zopp sy (Z.pos (fst (shl_align m2 e2 ez)))).
  destruct (Z.eq_dec (A - B)%Z 0%Z) as [E|E].
  - right. replace (B - A)%Z with 0%Z by lia. now rewrite E.
  - left. replace (B - A)%Z with (- (A - B))%Z by lia. now apply binary_normalize_opp.
Qed.

Lemma opp_involutive (x : float) : (- - x)%float = x.
Proof. apply Prim2SF_inj. rewrite !opp_spec. apply SFopp_involutive. Qed.

Lemma mul_comm (x y : float) : (x * y)%float = (y * x)%float.
Proof. apply Prim2SF_inj. rewrite !mul_spec. apply SFmul_comm. Qed.

Lemma mul_opp_l (x y : float) : (- x * y)%float = (- (x * y))%float.
Proof. apply Prim2SF_inj. rewrite opp_spec, !mul_spec, opp_spec. apply SFmul_opp_l. Qed.

Lemma mul_opp_r (x y : float) : (x * - y)%float = (- (x * y))%float.
Proof. now rewrite mul_comm, mul_opp_l, mul_comm. Qed.

Lemma div_opp_l (x y : float) : (- x / y)%float = (- (x / y))%float.
Proof. apply Prim2SF_inj. rewrite opp_spec, !div_spec, opp_spec. apply SFdiv_opp_l. Qed.

Lemma sub_mirror (x y : float) : mirror (y - x) (x - y).
Proof.
  destruct (SFsub_swap (Prim2SF x) (Prim2SF y)) as [H|H].
  - right. apply Prim2SF_inj. now rewrite opp_spec, !sub_spec.
  - left. apply Prim2SF_inj. now rewrite !sub_spec.
Qed.

Lemma mirror_mul_l x y c : mirror x y -> mirror (x * c) (y * c).
Proof. intros [->| ->]; [now left|right; apply mul_opp_l]. Qed.

Lemma mirror_div_l x y c : mirror x y -> mirror (x / c) (y / c).
Proof. intros [->| ->]; [now left|right; apply div_opp_l]. Qed.

Lemma mirror_toRad x y : mirror x y -> mirror (toRad x) (toRad y).
Proof. intros H. unfold toRad. now apply mirror_div_l, mirror_mul_l. Qed.

Lemma mirror_square x y : mirror x y -> (x * x)%float = (y * y)%float.
Proof. intros [->| ->]; [reflexivity|]. now rewrite mul_opp_l, mul_opp_r, opp_involutive. Qed.

Lemma mirror_scaled_square c x y : mirror x y -> (c * x * x)%float = (c * y * y)%float.
Proof.
  intros [->| ->]; [reflexivity|].
  now rewrite !mul_opp_r, mul_opp_l, opp_involutive.
Qed.

Lemma haversine_symmetric rt a b :
  (forall x, Math_sin rt (- x) = (- Math_sin rt x)%float) ->
  _haversine rt a b = _haversine rt b a.
Proof.
  intros Hodd.
  assert (Hsin : forall x y, mirror x y -> mirror (Math_sin rt x) (Math_sin rt y)).
  { intros x y [->| ->]; [now left|right; apply Hodd]. }
  unfold _haversine. cbv zeta.
  assert (Hlat : mirror (Math_sin rt (toRad (lat b - lat a) / 2))
                        (Math_sin rt (toRad (lat a - lat b) / 2)))
    by apply Hsin, mirror_div_l, mirror_toRad, sub_mirror.
  assert (Hlng : mirror (Math_sin rt (toRad (lng b - lng a) / 2))
                        (Math_sin rt (toRad (lng a - lng b) / 2)))
    by apply Hsin, mirror_div_l, mirror_toRad, sub_mirror.
  rewrite (mirror_square _ _ Hlat).
  rewrite (mirror_scaled_square (Math_cos rt (toRad (lat a)) * Math_cos rt (toRad (lat b))) _ _ Hlng).
  rewrite (mul_comm (Math_cos rt (toRad (lat a)))).
  reflexivity.
Qed.

(** * Binary64 arithmetic: what stays finite *)

Section Rounding.
Local Open Scope Z_scope.

Lemma digits2_pos_size p : digits2_pos p = Pos.size p.
Proof. induction p; cbn; congruence. Qed.

Lemma Zdigits2_nonneg m : 0 <= Zdigits2 m.
Proof. destruct m; cbn; lia. Qed.

Lemma Zdigits2_gt m : 0 <= m -> m < 2 ^ Zdigits2 m.
Proof.
  destruct m as [|p|p]; cbn [Zdigits2]; [lia| |lia]. intros _.
  rewrite digits2_pos_size, <- Pos2Z.inj_pow. apply Pos2Z.pos_lt_pos, Pos.size_gt.
Qed.

Lemma Zdigits2_le m k : 0 <= m < 2 ^ k -> 0 <= k -> Zdigits2 m <= k.
Proof.
  destruct m as [|p|p]; cbn [Zdigits2]; [lia| |lia]. intros [_ Hm] Hk.
  rewrite digits2_pos_size.
  assert (H : 2 ^ Z.pos (Pos.size p) <= Z.pos p~0).
  { rewrite <- Pos2Z.inj_pow. apply Pos2Z.pos_le_pos, Pos.size_le. }
  assert (H2 : 2 ^ Z.pos (Pos.size p) < 2 ^ (k + 1)).
  { rewrite Z.pow_add_r by lia. lia. }
  apply Z.pow_lt_mono_r_iff in H2; lia.
Qed.

Lemma Zdigits2_mono m m' : 0 <= m <= m' -> Zdigits2 m <= Zdigits2 m'.
Proof.
  intros H. apply Zdigits2_le; [|apply Zdigits2_nonneg].
  pose proof (Zdigits2_gt m'). lia.
Qed.

Lemma Zdigits2_succ m : 0 <= m -> Zdigits2 (m + 1) <= Zdigits2 m + 1.
Proof.
  intros H. pose proof (Zdigits2_gt m H) as G. pose proof (Zdigits2_nonneg m).
  apply Zdigits2_le; [|lia]. rewrite Z.pow_add_r by lia. lia.
Qed.

Lemma shr_1_digits mrs :
  0 <= shr_m mrs ->
  0 <= shr_m (shr_1 mrs)
  /\ Zdigits2 (shr_m (shr_1 mrs)) = Z.max 0 (Zdigits2 (shr_m mrs) - 1).
Proof.
  destruct mrs as [m r s]. cbn [shr_m]. intros H.
  destruct m as [|[p|p|]|p]; cbn; try lia.
Qed.

Lemma iter_shr_1_digits p : forall mrs,
  0 <= shr_m mrs ->
  0 <= shr_m (iter_pos shr_1 p mrs)
  /\ Zdigits2 (shr_m (iter_pos shr_1 p mrs)) = Z.max 0 (Zdigits2 (shr_m mrs) - Z.pos p).
Proof.
  induction p as [p IH|p IH|]; intros mrs H; cbn [iter_pos].
  - destruct (shr_1_digits mrs H) as [H1 E1].
    destruct (IH _ H1) as [H2 E2]. destruct (IH _ H2) as [H3 E3].
    split; [exact H3|]. rewrite E3, E2, E1. lia.
  - destruct (IH _ H) as [H2 E2]. destruct (IH _ H2) as [H3 E3].
    split; [exact H3|]. rewrite E3, E2. lia.
  - apply shr_1_digits, H.
Qed.

Lemma shr_m_of_loc m l : shr_m (shr_record_of_loc m l) = m.
Proof. destruct l as [|[| |]]; reflexivity. Qed.

(** After the shift the exponent is the larger of the old one and
    [fexp]; the number of digits plus the exponent does not grow. *)
Lemma shr_fexp_bound m e l :
  0 <= m ->
  let '(mrs, e') := shr_fexp prec emax m e l in
  0 <= shr_m mrs
  /\ e' = Z.max e (fexp prec emax (Zdigits2 m + e))
  /\ Zdigits2 (shr_m mrs) + e' <= Z.max (Zdigits2 m + e) e'.
Proof.
  intros H. unfold shr_fexp, shr.
  destruct (fexp prec emax (Zdigits2 m + e) - e) as [|p|p] eqn:E.
  - rewrite shr_m_of_loc. lia.
  - destruct (iter_shr_1_digits p (shr_record_of_loc m l)) as [H1 E1].
    { now rewrite shr_m_of_loc. }
    rewrite shr_m_of_loc in E1. split; [exact H1|]. rewrite E1. lia.
  - rewrite shr_m_of_loc. lia.
Qed.

Lemma round_nearest_even_bound m l :
  0 <= m -> m <= round_nearest_even m l <= m + 1.
Proof.
  intros H. destruct l as [|[| |]]; cbn; try lia. destruct (Z.even m); lia.
Qed.

Lemma binary_round_aux_finite s m e l D :
  0 <= m -> Zdigits2 m <= D -> D + e <= 1023 -> e <= 971 ->
  finite_below (Z.max e (Z.max (D + e - 52) (-1074))) (binary_round_aux prec emax s m e l).
Proof.
  intros Hm HD HT He. unfold binary_round_aux.
  pose proof (shr_fexp_bound m e l Hm) as B1.
  destruct (shr_fexp prec emax m e l) as [mrs1 e1]. destruct B1 as (H1 & E1 & T1).
  pose proof (round_nearest_even_bound (shr_m mrs1) (loc_of_shr_record mrs1) H1) as R.
  set (m2 := round_nearest_even (shr_m mrs1) (loc_of_shr_record mrs1)) in *.
  assert (Hm2 : 0 <= m2) by lia.
  pose proof (shr_fexp_bound m2 e1 loc_Exact Hm2) as B2.
  destruct (shr_fexp prec emax m2 e1 loc_Exact) as [mrs3 e3]. destruct B2 as (H3 & E3 & _).
  assert (D2 : Zdigits2 m2 <= Zdigits2 (shr_m mrs1) + 1).
  { etransitivity; [apply (Zdigits2_mono m2 (shr_m mrs1 + 1)); lia|].
    now apply Zdigits2_succ. }
  assert (Hfexp : forall z, fexp prec emax z = Z.max (z - 53) (-1074)) by reflexivity.
  rewrite Hfexp in E1, E3.
  assert (B : e3 <= Z.max e (Z.max (D + e - 52) (-1074))) by lia.
  destruct (shr_m mrs3) as [|p|p]; cbn; [trivial| |lia].
  change (emax - prec) with 971.
  destruct (e3 <=? 971) eqn:L; cbn; [exact B|]. apply Z.leb_gt in L. lia.
Qed.

Lemma finite_below_mono k k' f : k <= k' -> finite_below k f -> finite_below k' f.
Proof. destruct f; cbn; try tauto. lia. Qed.

Lemma valid_digits s m e :
  valid_binary (S754_finite s m e) = true -> Z.pos (digits2_pos m) <= 53.
Proof.
  cbn. unfold bounded, canonical_mantissa. intros H.
  apply andb_true_iff in H as [H _]. apply Z.eqb_eq in H.
  change (fexp prec emax ?z) with (Z.max (z - 53) (-1074)) in H. lia.
Qed.

Lemma SFmul_finite x y k1 k2 :
  valid_binary x = true -> valid_binary y = true ->
  finite_below k1 x -> finite_below k2 y -> k1 + k2 <= 917 ->
  finite_below (Z.max (k1 + k2 + 54) (-1074)) (SF64mul x y).
Proof.
  intros Vx Vy Hx Hy Hk.
  destruct x as [sx|sx| |sx m1 e1], y as [sy|sy| |sy m2 e2]; cbn in Hx, Hy; try tauto;
    try exact I.
  apply valid_digits in Vx, Vy. cbn [SF64mul SFmul].
  unfold SF64mul, SFmul.
  eapply finite_below_mono;
    [|apply (binary_round_aux_finite _ (Z.pos (m1 * m2)) (e1 + e2) loc_Exact 106)]; try lia.
  apply Zdigits2_le; [|lia].
  pose proof (Zdigits2_gt (Z.pos m1)) as G1. pose proof (Zdigits2_gt (Z.pos m2)) as G2.
  cbn [Zdigits2] in G1, G2.
  assert (Z.pos m1 < 2 ^ 53).
  { eapply Z.lt_le_trans; [apply G1; lia|]. apply Z.pow_le_mono_r; lia. }
  assert (Z.pos m2 < 2 ^ 53).
  { eapply Z.lt_le_trans; [apply G2; lia|]. apply Z.pow_le_mono_r; lia. }
  rewrite Pos2Z.inj_mul. change (2 ^ 106) with (2 ^ 53 * 2 ^ 53). nia.
Qed.

Lemma SFdiv_finite x sy my ey k1 :
  valid_binary x = true -> finite_below k1 x -> k1 - ey <= 970 ->
  finite_below (Z.max (k1 - ey + 1) (-1074)) (SF64div x (S754_finite sy my ey)).
Proof.
  intros Vx Hx Hk. destruct x as [sx|sx| |sx m1 e1]; cbn in Hx; try tauto; try exact I.
  apply valid_digits in Vx. unfold SF64div, SFdiv, SFdiv_core_binary.
  set (d1 := Zdigits2 (Z.pos m1)). set (d2 := Zdigits2 (Z.pos my)).
  set (e' := Z.min (fexp prec emax (d1 + e1 - (d2 + ey))) (e1 - ey)).
  set (s := e1 - ey - e').
  set (m' := match s with Z.pos _ => Z.shiftl (Z.pos m1) s | 0 => Z.pos m1 | Z.neg _ => 0 end).
  assert (Hs : 0 <= s) by (unfold s, e'; lia).
  assert (Hd1 : d1 <= 53) by exact Vx.
  assert (Hm' : 0 <= m' < 2 ^ (d1 + s)).
  { pose proof (Zdigits2_gt (Z.pos m1)) as G. fold d1 in G.
    pose proof (Zdigits2_nonneg (Z.pos m1)) as N. fold d1 in N.
    unfold m'. destruct s as [|p|p] eqn:Es; [rewrite Z.add_0_r; lia| |lia].
    rewrite Z.shiftl_mul_pow2 by lia. rewrite Z.pow_add_r by lia.
    assert (0 < 2 ^ Z.pos p) by (apply Z.pow_pos_nonneg; lia). nia. }
  pose proof (Z_div_mod m' (Z.pos my)) as Hdiv.
  destruct (Z.div_eucl m' (Z.pos my)) as [q r].
  destruct Hdiv as [Hq Hr]; [lia|].
  assert (Hq0 : 0 <= q <= m') by nia.
  assert (Es : s = e1 - ey - e') by reflexivity.
  assert (He' : e' <= e1 - ey) by (unfold e'; lia).
  pose proof (Zdigits2_nonneg (Z.pos m1)) as N. fold d1 in N.
  eapply finite_below_mono;
    [|apply (binary_round_aux_finite _ q e' _ (d1 + s))]; try lia.
  apply Zdigits2_le; lia.
Qed.

Lemma SFleb_between mB eB f :
  SFleb (S754_finite true mB eB) f = true -> SFleb f (S754_finite false mB eB) = true ->
  finite_below eB f.
Proof.
  unfold SFleb. destruct f as [s|[|]| |[|] m e]; cbn; try discriminate; try tauto.
  - intros H _. destruct (Z.compare_spec eB e); first [lia|discriminate].
  - intros _ H. destruct (Z.compare_spec e eB); first [lia|discriminate].
Qed.

Lemma SFleb_abs mB eB f :
  SFleb (SFabs f) (S754_finite false mB eB) = true -> finite_below eB f.
Proof.
  unfold SFleb. destruct f as [s|[|]| |[|] m e]; cbn; try discriminate; try tauto.
  - intros H. destruct (Z.compare_spec e eB); first [lia|discriminate].
  - intros H. destruct (Z.compare_spec e eB); first [lia|discriminate].
Qed.

End Rounding.

Lemma finite_at_is_finite k x : finite_at k x -> is_finite x = true.
Proof.
  unfold finite_at, is_finite, is_nan, is_infinity.
  rewrite !eqb_spec, abs_spec. change (Prim2SF infinity) with (S754_infinity false).
  destruct (Prim2SF x) as [[|]|[|]| |[|] m e]; cbn; try tauto; intros _;
    unfold SFeqb; cbn; now rewrite Z.compare_refl, Pos.compare_cont_refl.
Qed.

Lemma between_finite_at (x B : float) mB eB :
  Prim2SF B = S754_finite false mB eB ->
  (- B <=? x)%float = true -> (x <=? B)%float = true -> finite_at eB x.
Proof.
  intros HB. rewrite !leb_spec, opp_spec, HB. apply SFleb_between.
Qed.

Lemma abs_finite_at (x B : float) mB eB :
  Prim2SF B = S754_finite false mB eB ->
  (abs x <=? B)%float = true -> finite_at eB x.
Proof.
  intros HB. rewrite leb_spec, abs_spec, HB. apply SFleb_abs.
Qed.

Lemma mul_finite_at (x y : float) k1 k2 :
  finite_at k1 x -> finite_at k2 y -> (k1 + k2 <= 917)%Z ->
  finite_at (Z.max (k1 + k2 + 54) (-1074)) (x * y).
Proof.
  unfold finite_at. rewrite mul_spec. intros. apply SFmul_finite; auto using Prim2SF_valid.
Qed.

Lemma div_finite_at (x y : float) sy my ey k1 :
  Prim2SF y = S754_finite sy my ey ->
  finite_at k1 x -> (k1 - ey <= 970)%Z ->
  finite_at (Z.max (k1 - ey + 1) (-1074)) (x / y).
Proof.
  unfold finite_at. rewrite div_spec. intros ->. intros. apply SFdiv_finite; auto using Prim2SF_valid.
Qed.

Lemma sub_diag (x : float) k : finite_at k x -> (x - x)%float = 0%float.
Proof.
  unfold finite_at. intros H. apply Prim2SF_inj. rewrite sub_spec.
  change (Prim2SF 0) with (S754_zero false).
  destruct (Prim2SF x) as [[|]|[|]| |s m e]; cbn in H; try tauto; try reflexivity.
  unfold SF64sub, SFsub. now rewrite Z.sub_diag.
Qed.

Lemma zero_product (x : float) k : finite_at k x -> (0 + x * 0 * 0)%float = 0%float.
Proof.
  unfold finite_at. intros H. apply Prim2SF_inj. rewrite add_spec, !mul_spec.
  change (Prim2SF 0) with (S754_zero false).
  destruct (Prim2SF x) as [[|]|[|]| |[|] m e]; cbn in H; try tauto; reflexivity.
Qed.

(** The radians of a latitude between -90 and 90 are finite. *)
Lemma toRad_finite (x : float) :
  (-90 <=? x)%float = true -> (x <=? 90)%float = true -> is_finite (toRad x) = true.
Proof.
  intros Hlo Hhi.
  assert (Hx : finite_at (-46) x).
  { apply (between_finite_at x 90 6333186975989760 (-46)); [reflexivity|exact Hlo|exact Hhi]. }
  assert (Hpi : finite_at (-51) Math_PI).
  { unfold finite_at.
    change (Prim2SF Math_PI) with (S754_finite false 7074237752028440 (-51)). cbn. lia. }
  pose proof (mul_finite_at x Math_PI _ _ Hx Hpi ltac:(lia)) as Hm.
  pose proof (div_finite_at (x * Math_PI) 180 false 6333186975989760 (-45) _ eq_refl Hm ltac:(lia))
    as Hd.
  exact (finite_at_is_finite _ _ Hd).
Qed.

Lemma haversine_zero rt a :
  Math_sin rt 0 = 0%float -> Math_atan2 rt 0 1 = 0%float ->
  (forall x, is_finite x = true -> (abs (Math_cos rt x) <=? 1)%float = true) ->
  in_range a = true -> _haversine rt a a = 0%float.
Proof.
  intros Hsin Hatan Hcos Hr. unfold in_range in Hr.
  apply andb_true_iff in Hr as [Hr H4]. apply andb_true_iff in Hr as [Hr H3].
  apply andb_true_iff in Hr as [H1 H2].
  assert (Hlat : finite_at (-46) (lat a)).
  { apply (between_finite_at _ 90 6333186975989760 (-46)); [reflexivity| |]; assumption. }
  assert (Hlng : finite_at (-45) (lng a)).
  { apply (between_finite_at _ 180 6333186975989760 (-45)); [reflexivity| |]; assumption. }
  pose proof (Hcos _ (toRad_finite _ H1 H2)) as Hc.
  apply (abs_finite_at _ 1 4503599627370496 (-52) eq_refl) in Hc.
  pose proof (mul_finite_at _ _ _ _ Hc Hc ltac:(lia)) as Hcc.
  unfold _haversine. cbv zeta.
  rewrite (sub_diag _ _ Hlat), (sub_diag _ _ Hlng).
  replace (toRad 0 / 2)%float with 0%float by reflexivity.
  rewrite Hsin. replace (0 * 0)%float with 0%float by reflexivity.
  rewrite (zero_product _ _ Hcc).
  replace (sqrt 0) with 0%float by reflexivity.
  replace (sqrt (1 - 0)) with 1%float by reflexivity.
  rewrite Hatan. reflexivity.
Qed.

Lemma add_nan_l (x : float) : (nan + x)%float = nan.
Proof. apply Prim2SF_inj. rewrite add_spec. reflexivity. Qed.

(** With an infinite latitude at both ends the distance is NaN on every
    engine whose sine and arc tangent of NaN are NaN. *)
Lemma haversine_nan_of_infinite_latitudes rt (l l' : float) :
  Math_sin rt nan = nan -> (forall y, Math_atan2 rt nan y = nan) ->
  _haversine rt {| lat := infinity; lng := l |} {| lat := infinity; lng := l' |} = nan.
Proof.
  intros Hsin Hatan. unfold _haversine. cbv zeta. cbn [lat lng].
  replace (toRad (infinity - infinity) / 2)%float with nan by reflexivity.
  rewrite Hsin. replace (nan * nan)%float with nan by reflexivity.
  rewrite add_nan_l. replace (sqrt nan) with nan by reflexivity.
  rewrite Hatan. reflexivity.
Qed.

(** * Great-circle distance: symmetry and zero *)

(** C9, as the code has it, on an engine whose sine is odd and exact at 0,
    whose arc tangent of 0 and 1 is 0 and whose cosine of a finite number is
    at most 1 in magnitude.  For all points, [_haversine(a, b)] and
    [_haversine(b, a)] are the same binary64 value, so they are [==] whenever
    the distance is not NaN; and the distance from a point to itself is
    exactly 0 when its coordinates are in range. *)
Theorem haversine_symmetric_and_zero (rt : Runtime) (a b : Point) :
  (forall x, Math_sin rt (- x) = (- Math_sin rt x)%float) ->
  Math_sin rt 0 = 0%float ->
  Math_atan2 rt 0 1 = 0%float ->
  (forall x, is_finite x = true -> (abs (Math_cos rt x) <=? 1)%float = true) ->
  _haversine rt a b = _haversine rt b a
  /\ (is_nan (_haversine rt a b) = false ->
      (_haversine rt a b =? _haversine rt b a)%float = true)
  /\ (in_range a = true ->
      _haversine rt a a = 0%float /\ (_haversine rt a a =? 0)%float = true).
Proof.
  intros Hodd Hsin Hatan Hcos.
  pose proof (haversine_symmetric rt a b Hodd) as Hsym. split; [exact Hsym|]. split.
  - rewrite <- Hsym. unfold is_nan. now intros ->%negb_false_iff.
  - intros Hr. rewrite (haversine_zero rt a Hsin Hatan Hcos Hr). split; reflexivity.
Qed.

Lemma haversine_symmetric_and_zero_witness :
  _haversine small_angle {| lat := 37.7749; lng := -122.4194 |}
                         {| lat := 34.0522; lng := -118.2437 |}
  = _haversine small_angle {| lat := 34.0522; lng := -118.2437 |}
                           {| lat := 37.7749; lng := -122.4194 |}.
Proof.
  apply (haversine_symmetric_and_zero small_angle
           {| lat := 37.7749; lng := -122.4194 |} {| lat := 34.0522; lng := -118.2437 |});
    first [reflexivity | intros; reflexivity].
Defined.

(** C9, as stated, fails: a point with an infinite latitude passes the
    validation, and its distance to itself is NaN, which is neither 0 nor
    [==] to itself. *)
Lemma haversine_nan_for_a_valid_point :
  _validatePoint small_angle (latlng infinity 0) PointA
  = Resolved {| lat := infinity; lng := 0 |}
  /\ (_haversine small_angle {| lat := infinity; lng := 0 |} {| lat := infinity; lng := 0 |}
      =? 0)%float = false
  /\ (_haversine small_angle {| lat := infinity; lng := 0 |} {| lat := infinity; lng := 0 |}
      =? _haversine small_angle {| lat := infinity; lng := 0 |}
                                {| lat := infinity; lng := 0 |})%float = false.
Proof. repeat split; vm_compute; reflexivity. Qed.

(** * Invalid input: what is rejected, and before what *)

Lemma validatePoint_rejected rt p name :
  is_resolved (_validatePoint rt p name) = false ->
  _validatePoint rt p name = Rejected (InvalidPoint name).
Proof.
  destruct (_validatePoint rt p name) as [pt|e] eqn:E; [discriminate|].
  intros _. now rewrite (validatePoint_error rt p name e E).
Qed.

(** The name goes into the message only. *)
Lemma validatePoint_name rt p name name' :
  is_resolved (_validatePoint rt p name') = is_resolved (_validatePoint rt p name)
  /\ forall pt, _validatePoint rt p name = Resolved pt -> _validatePoint rt p name' = Resolved pt.
Proof.
  unfold _validatePoint. destruct (_toPoint rt p) as [q|]; [|split; [reflexivity|discriminate]].
  destruct (is_nan (lat q) || is_nan (lng q)); split; try reflexivity; try discriminate.
  now intros pt [= <-].
Qed.



(** X2.  [getDistanceMatrix] and [optimizeRoute] reject a [points] that is
    not an array, or an array of fewer than two entries, before they look at
    any entry and without sending a request. *)
Theorem points_need_two_entries
    (rt : Runtime) (net : Network) (points : Value) (options : Options) :
  match points with
  | JArr l => (length l < 2)%nat
  | _ => True
  end ->
  run (getDistanceMatrix rt net points options) = (Rejected InvalidInput, [])
  /\ run (optimizeRoute rt net points options) = (Rejected InvalidInput, []).
Proof.
  intros H.
  assert (E : validate_points rt points = Rejected InvalidInput).
  { destruct points as [| | | | |l|]; try reflexivity. unfold validate_points.
    apply Nat.ltb_lt in H. now rewrite H. }
  unfold run, getDistanceMatrix, optimizeRoute, bind, lift. now rewrite E.
Qed.

Lemma points_need_two_entries_witness :
  run (getDistanceMatrix small_angle offline (JArr [JNull]) no_options)
  = (Rejected InvalidInput, [])
  /\ run (optimizeRoute small_angle offline (JArr [JNull]) no_options)
     = (Rejected InvalidInput, []).
Proof.
  apply (points_need_two_entries small_angle offline (JArr [JNull]) no_options). cbn. lia.
Defined.

(** The entries are normalized one by one, from the first: the first that
    is invalid ends the traversal with its index. *)
Lemma validate_from_first_invalid rt l : forall i k p,
  l !! k = Some p ->
  is_resolved (_validatePoint rt p (PointsAt (i + k))) = false ->
  (forall j q, (j < k)%nat -> l !! j = Some q ->
     is_resolved (_validatePoint rt q (PointsAt (i + j))) = true) ->
  validate_from rt i l = Rejected (InvalidPoint (PointsAt (i + k))).
Proof.
  induction l as [|q l IH]; intros i k p Hk Hbad Hgood; [discriminate|].
  destruct k as [|k]; cbn [validate_from].
  - injection Hk as ->. rewrite Nat.add_0_r in *.
    now rewrite (validatePoint_rejected rt p _ Hbad).
  - pose proof (Hgood 0%nat q ltac:(lia) eq_refl) as Hq. rewrite Nat.add_0_r in Hq.
    destruct (_validatePoint rt q (PointsAt i)) as [pt|]; [|discriminate]. cbn [obind].
    rewrite (IH (S i) k p Hk).
    + cbn. do 3 f_equal. lia.
    + now replace (S i + k)%nat with (i + S k)%nat by lia.
    + intros j q' Hj Hq'. replace (S i + j)%nat with (i + S j)%nat by lia.
      apply Hgood; [lia|exact Hq'].
Qed.



Lemma validate_from_entries rt l : forall i pts,
  validate_from rt i l = Resolved pts <->
  length pts = length l
  /\ forall j p, l !! j = Some p ->
       exists pt, pts !! j = Some pt /\ _validatePoint rt p (PointsAt (i + j)) = Resolved pt.
Proof.
  induction l as [|q l IH]; intros i pts; cbn [validate_from].
  - split.
    + intros [= <-]. split; [reflexivity|]. discriminate.
    + intros [Hlen _]. destruct pts; [reflexivity|discriminate].
  - split.
    + destruct (_validatePoint rt q (PointsAt i)) as [pt|] eqn:Eq; [|discriminate].
      cbn [obind]. destruct (validate_from rt (S i) l) as [rest|] eqn:E; [|discriminate].
      intros [= <-]. apply IH in E as [Hlen Hall]. split; [cbn; now rewrite Hlen|].
      intros [|j] p Hp.
      * injection Hp as <-. exists pt. now rewrite Nat.add_0_r.
      * destruct (Hall j p Hp) as (pt' & ? & ?). exists pt'.
        now replace (i + S j)%nat with (S i + j)%nat by lia.
    + intros [Hlen Hall]. destruct pts as [|pt rest]; [discriminate|].
      destruct (Hall 0%nat q eq_refl) as (pt' & [= <-] & Hq). rewrite Nat.add_0_r in Hq.
      rewrite Hq. cbn [obind].
      assert (E : validate_from rt (S i) l = Resolved rest).
      { apply IH. split; [cbn in Hlen; lia|]. intros j p Hp.
        destruct (Hall (S j) p Hp) as (pt' & ? & ?). exists pt'.
        now replace (S i + j)%nat with (i + S j)%nat by lia. }
      now rewrite E.
Qed.

(** X4.  Normalization keeps the entries and their order: [points] is
    accepted exactly when it is an array of at least two entries that are
    all valid, and then the list of points has one point for each entry, at
    the same position, the one [_validatePoint] returns for it. *)
Theorem validate_points_keeps_every_entry (rt : Runtime) (points : Value) (pts : list Point) :
  validate_points rt points = Resolved pts <->
  exists l, points = JArr l /\ (2 <= length l)%nat /\ length pts = length l
    /\ forall j p, l !! j = Some p ->
         exists pt, pts !! j = Some pt /\ _validatePoint rt p (PointsAt j) = Resolved pt.
Proof.
  split.
  - destruct points as [| | | | |l|]; try discriminate. unfold validate_points.
    destruct (length l <? 2)%nat eqn:E; [discriminate|]. apply Nat.ltb_ge in E.
    intros H%validate_from_entries. exists l. tauto.
  - intros (l & -> & Hlen & H). unfold validate_points. apply Nat.ltb_ge in Hlen. rewrite Hlen.
    now apply validate_from_entries.
Qed.

Lemma validate_points_keeps_every_entry_witness :
  exists l, JArr [latlng 0 0; JArr [JNum 1; JNum 2]] = JArr l /\ (2 <= length l)%nat
    /\ length [ {| lat := 0; lng := 0 |}; {| lat := 1; lng := 2 |} ] = length l
    /\ forall j p, l !! j = Some p ->
         exists pt, [ {| lat := 0; lng := 0 |}; {| lat := 1; lng := 2 |} ] !! j = Some pt
                    /\ _validatePoint small_angle p (PointsAt j) = Resolved pt.
Proof.
  apply (validate_points_keeps_every_entry small_angle
           (JArr [latlng 0 0; JArr [JNum 1; JNum 2]])
           [ {| lat := 0; lng := 0 |}; {| lat := 1; lng := 2 |} ]).
  reflexivity.
Defined.



(** X6.  Normalization is idempotent: the point that [_validatePoint]
    returns is in the preferred shape [{ lat, lng }] and, given back as
    input, is returned as it is.  The points of a result can be the input of
    another call. *)
Theorem validatePoint_idempotent
    (rt : Runtime) (p : Value) (name name' : PointName) (pt : Point) :
  _validatePoint rt p name = Resolved pt ->
  _validatePoint rt (latlng (lat pt) (lng pt)) name' = Resolved pt.
Proof.
  intros (_ & Hlat & Hlng)%validatePoint_resolved. apply validatePoint_resolved.
  rewrite toPoint_latlng. now destruct pt.
Qed.

Lemma validatePoint_idempotent_witness :
  _validatePoint small_angle (latlng 1 2) PointB = Resolved {| lat := 1; lng := 2 |}.
Proof.
  apply (validatePoint_idempotent small_angle (JArr [JBool true; JNum 2]) (PointsAt 0) PointB
           {| lat := 1; lng := 2 |}).
  reflexivity.
Defined.

(** * Which branch is entered *)

Lemma getDistanceMatrix_run rt net points options pts :
  validate_points rt points = Resolved pts ->
  run (getDistanceMatrix rt net points options)
  = if google_selected options then
      (obind (response_json (net 0%nat (google_matrix_request options pts))) (google_matrix rt),
       [google_matrix_request options pts])
    else if ors_selected options then
      (obind (response_json (net 0%nat (ors_matrix_request options pts))) passthrough_matrix,
       [ors_matrix_request options pts])
    else if osrm_selected options then
      (obind (response_json (net 0%nat (table_request options pts))) osrm_matrix,
       [table_request options pts])
    else (Resolved (haversine_matrix rt pts), []).
Proof.
  intros Hp. unfold run, getDistanceMatrix, bind, lift, ret, _fetchJson. rewrite Hp.
  destruct (google_selected options).
  { cbn -[google_matrix]. fold (google_matrix_request options pts).
    destruct (response_json _); reflexivity. }
  destruct (ors_selected options).
  { cbn. fold (ors_matrix_request options pts). destruct (response_json _); reflexivity. }
  destruct (osrm_selected options); [|reflexivity].
  cbn. fold (table_request options pts). destruct (response_json _); reflexivity.
Qed.

Lemma optimizeRoute_osrm rt net points options pts :
  validate_points rt points = Resolved pts ->
  google_selected options = false -> osrm_selected options = true ->
  run (optimizeRoute rt net points options)
  = (obind (response_json (net 0%nat (trip_request options pts))) (osrm_route rt pts),
     [trip_request options pts]).
Proof.
  intros Hp G S. unfold run, optimizeRoute, bind, lift, _fetchJson. rewrite Hp, G, S.
  cbn -[osrm_route]. fold (trip_request options pts).
  destruct (response_json _); reflexivity.
Qed.

Lemma run_rejected_early {A B} (m : Outcome A) (k : A -> Async B) e :
  m = Rejected e -> run (bind (lift m) k) = (Rejected e, []).
Proof. intros ->. reflexivity. Qed.

Lemma calculateDistance_invalid rt net a b options :
  is_resolved (_validatePoint rt a PointA) && is_resolved (_validatePoint rt b PointB) = false ->
  requests (calculateDistance rt net a b options) = [].
Proof.
  unfold requests, run, calculateDistance, bind, lift.
  destruct (_validatePoint rt a PointA); [|reflexivity].
  destruct (_validatePoint rt b PointB); [discriminate|reflexivity].
Qed.

Lemma points_invalid rt net points options :
  is_resolved (validate_points rt points) = false ->
  requests (getDistanceMatrix rt net points options) = []
  /\ requests (optimizeRoute rt net points options) = [].
Proof.
  unfold requests, run, getDistanceMatrix, optimizeRoute, bind, lift.
  destruct (validate_points rt points); [discriminate|]. now split.
Qed.

(** What a name given as [provider] selects. *)
Lemma selected_by_name options name :
  provider options = JStr name -> name <> "" ->
  google_selected options
  = (String.eqb name "google" || String.eqb name "auto") && truthy (googleApiKey options)
  /\ ors_selected options
     = (String.eqb name "ors" || String.eqb name "openrouteservice" || String.eqb name "auto")
       && truthy (openRouteServiceApiKey options)
  /\ osrm_selected options = String.eqb name "osrm" || String.eqb name "auto".
Proof.
  intros Hp Hne. unfold google_selected, ors_selected, osrm_selected, js_or.
  rewrite Hp. cbn [truthy].
  destruct (String.eqb_spec name ""); [contradiction|]. cbn. auto.
Qed.

(** What is selected when [provider] is left out, or falsy. *)
Lemma selected_by_default options :
  truthy (provider options) = false ->
  google_selected options = truthy (googleApiKey options)
  /\ ors_selected options = truthy (openRouteServiceApiKey options)
  /\ osrm_selected options = true.
Proof.
  intros Hp. unfold google_selected, ors_selected, osrm_selected, js_or.
  rewrite Hp. cbn. auto.
Qed.





(** X9.  A call asks one provider at most, and never again after an answer:
    [calculateDistance] sends two requests at most (the second is the retry
    of its OpenRouteService branch), [getDistanceMatrix] and [optimizeRoute]
    one at most; all the requests of a call go to the same provider; and
    [optimizeRoute] sends none to OpenRouteService. *)
Theorem requests_are_bounded
    (rt : Runtime) (net : Network) (a b points : Value) (options : Options) :
  (length (requests (calculateDistance rt net a b options)) <= 2)%nat
  /\ (length (requests (getDistanceMatrix rt net points options)) <= 1)%nat
  /\ (length (requests (optimizeRoute rt net points options)) <= 1)%nat
  /\ (forall q q', In q (requests (calculateDistance rt net a b options)) ->
                   In q' (requests (calculateDistance rt net a b options)) ->
                   provider_of q = provider_of q')
  /\ Forall (fun q => provider_of q <> OpenRouteService)
            (requests (optimizeRoute rt net points options)).
Proof.
  assert (C : exists l, requests (calculateDistance rt net a b options) = l
                /\ (length l <= 2)%nat
                /\ exists p, Forall (fun q => provider_of q = p) l).
  { destruct (_validatePoint rt a PointA) as [A|] eqn:Ha.
    2:{ exists []. rewrite calculateDistance_invalid by now rewrite Ha.
        repeat split; [cbn; lia|]. exists OSRM. constructor. }
    destruct (_validatePoint rt b PointB) as [B|] eqn:Hb.
    2:{ exists []. rewrite calculateDistance_invalid by now rewrite Ha, Hb.
        repeat split; [cbn; lia|]. exists OSRM. constructor. }
    unfold requests.
    destruct (google_selected options) eqn:G.
    { rewrite (calculateDistance_google rt net a b options A B Ha Hb G).
      eexists. split; [reflexivity|]. split; [cbn; lia|].
      exists Google. repeat constructor. }
    destruct (ors_selected options) eqn:O.
    { rewrite (calculateDistance_ors rt net a b options A B Ha Hb G O).
      destruct (response_json _); (eexists; split; [reflexivity|]; split; [cbn; lia|]);
        exists OpenRouteService; repeat constructor. }
    destruct (osrm_selected options) eqn:S.
    { rewrite (calculateDistance_osrm rt net a b options A B Ha Hb G O S).
      eexists. split; [reflexivity|]. split; [cbn; lia|].
      exists OSRM. repeat constructor. }
    rewrite (calculateDistance_no_provider rt net a b options A B Ha Hb G O S).
    eexists. split; [reflexivity|]. split; [cbn; lia|]. exists OSRM. constructor. }
  destruct C as (l & -> & Hlen & p & Hall).
  refine (conj Hlen (conj _ (conj _ (conj _ _)))).
  - destruct (validate_points rt points) as [pts|] eqn:Hp.
    2:{ destruct (points_invalid rt net points options) as [-> _]; [now rewrite Hp|cbn; lia]. }
    unfold requests. rewrite (getDistanceMatrix_run rt net points options pts Hp).
    destruct (google_selected options), (ors_selected options), (osrm_selected options);
      cbn; lia.
  - destruct (validate_points rt points) as [pts|] eqn:Hp.
    2:{ destruct (points_invalid rt net points options) as [_ ->]; [now rewrite Hp|cbn; lia]. }
    unfold requests. destruct (google_selected options) eqn:G.
    { destruct (optimizeRoute_google rt net points options pts Hp G) as (req & _ & ->).
      cbn. lia. }
    destruct (osrm_selected options) eqn:S.
    { rewrite (optimizeRoute_osrm rt net points options pts Hp G S). cbn. lia. }
    rewrite (optimizeRoute_naive rt net points options pts Hp G S). cbn. lia.
  - rewrite Forall_forall in Hall. intros q q' Hq Hq'.
    rewrite (Hall q), (Hall q'); [reflexivity| |]; now apply list_elem_of_In.
  - destruct (validate_points rt points) as [pts|] eqn:Hp.
    2:{ destruct (points_invalid rt net points options) as [_ ->]; [now rewrite Hp|constructor]. }
    unfold requests. destruct (google_selected options) eqn:G.
    { destruct (optimizeRoute_google rt net points options pts Hp G) as (req & Hreq & ->).
      cbn. repeat constructor. now rewrite Hreq. }
    destruct (osrm_selected options) eqn:S.
    { rewrite (optimizeRoute_osrm rt net points options pts Hp G S). cbn.
      repeat constructor. discriminate. }
    rewrite (optimizeRoute_naive rt net points options pts Hp G S). constructor.
Qed.

(** * Where the profile does not count *)

(** X10.  The [profile] of the options is not always used.  The Google
    branches never use it: with Google selected, each of the three calls
    sends the same request and has the same outcome for any two profile
    names.  The OpenRouteService branch of [calculateDistance] asks for the
    [foot-walking] matrix first, and uses the caller's profile only when
    that request fails: when it does not fail, the call sends this one
    request and its outcome is the same for any two profile names.  The
    local heuristic of [optimizeRoute] does not use it either. *)
Theorem profile_is_not_always_used
    (rt : Runtime) (net : Network) (a b points : Value) (options : Options)
    (p p' : string) :
  (google_selected options = true ->
     run (calculateDistance rt net a b (with_profile options p))
     = run (calculateDistance rt net a b (with_profile options p'))
     /\ run (getDistanceMatrix rt net points (with_profile options p))
        = run (getDistanceMatrix rt net points (with_profile options p'))
     /\ run (optimizeRoute rt net points (with_profile options p))
        = run (optimizeRoute rt net points (with_profile options p')))
  /\ (google_selected options = false -> ors_selected options = true ->
      forall A B,
        _validatePoint rt a PointA = Resolved A -> _validatePoint rt b PointB = Resolved B ->
        fetch_errors (net 0%nat {| url := OrsMatrix (JStr "foot-walking");
                                   init := ors_init options A B |}) = false ->
        run (calculateDistance rt net a b (with_profile options p))
        = run (calculateDistance rt net a b (with_profile options p'))
        /\ requests (calculateDistance rt net a b (with_profile options p))
           = [ {| url := OrsMatrix (JStr "foot-walking"); init := ors_init options A B |} ])
  /\ (google_selected options = false -> osrm_selected options = false ->
      run (optimizeRoute rt net points (with_profile options p))
      = run (optimizeRoute rt net points (with_profile options p'))).
Proof.
  assert (G' : forall s, google_selected (with_profile options s) = google_selected options)
    by reflexivity.
  assert (O' : forall s, ors_selected (with_profile options s) = ors_selected options)
    by reflexivity.
  assert (S' : forall s, osrm_selected (with_profile options s) = osrm_selected options)
    by reflexivity.
  refine (conj _ (conj _ _)).
  - intros G. refine (conj _ (conj _ _)).
    + unfold run, calculateDistance. rewrite !G', G. reflexivity.
    + unfold run, getDistanceMatrix. rewrite !G', G. reflexivity.
    + unfold run, optimizeRoute. rewrite !G', G. reflexivity.
  - intros G O A B Ha Hb Hok. unfold requests.
    rewrite (calculateDistance_ors rt net a b (with_profile options p) A B Ha Hb);
      [|now rewrite G'|now rewrite O'].
    rewrite (calculateDistance_ors rt net a b (with_profile options p') A B Ha Hb);
      [|now rewrite G'|now rewrite O'].
    change (ors_first_request (with_profile options p) A B)
      with (ors_first_request options A B).
    change (ors_first_request (with_profile options p') A B)
      with (ors_first_request options A B).
    rewrite fetch_errors_spec in Hok. fold (ors_first_request options A B) in Hok.
    destruct (response_json (net 0%nat (ors_first_request options A B)));
      [split; reflexivity|discriminate].
  - intros G S. unfold run, optimizeRoute. rewrite !G', !S', G, S. reflexivity.
Qed.

Lemma profile_is_not_always_used_witness :
  run (calculateDistance small_angle (ors_answers 1200 900) (latlng 0 0) (latlng 0.001 0.001)
         (with_profile (with_keys JUndefined (JStr "ors-key")) "driving-car"))
  = run (calculateDistance small_angle (ors_answers 1200 900) (latlng 0 0)
           (latlng 0.001 0.001)
           (with_profile (with_keys JUndefined (JStr "ors-key")) "cycling-regular"))
  /\ requests (calculateDistance small_angle (ors_answers 1200 900) (latlng 0 0)
                 (latlng 0.001 0.001)
                 (with_profile (with_keys JUndefined (JStr "ors-key")) "driving-car"))
     = [ {| url := OrsMatrix (JStr "foot-walking");
            init := ors_init (with_keys JUndefined (JStr "ors-key"))
                      {| lat := 0; lng := 0 |} {| lat := 0.001; lng := 0.001 |} |} ].
Proof.
  apply (profile_is_not_always_used small_angle (ors_answers 1200 900)
           (latlng 0 0) (latlng 0.001 0.001) JNull (with_keys JUndefined (JStr "ors-key"))
           "driving-car" "cycling-regular"); reflexivity.
Defined.

(** * getEstimatedTime *)

Lemma getEstimatedTime_run rt net a b options :
  run (getEstimatedTime rt net a b options)
  = (obind (result (calculateDistance rt net a b options))
           (fun res => Resolved (js_coalesce (match duration res with
                                              | Some t => t
                                              | None => JUndefined
                                              end) JNull)),
     requests (calculateDistance rt net a b options)).
Proof.
  unfold result, requests, run, getEstimatedTime, bind, ret.
  destruct (calculateDistance rt net a b options []) as [[res|e] log]; reflexivity.
Qed.

(** X11.  [getEstimatedTime] is [calculateDistance] followed by
    [res.duration ?? null].  It sends the same requests and rejects with the
    same error; it resolves with [null] when the result has no [duration] (as
    the Haversine result), or one that is [undefined] or [null], and with the
    duration itself otherwise, a duration of 0 included; it never resolves
    with [undefined]. *)
Theorem getEstimatedTime_follows_calculateDistance
    (rt : Runtime) (net : Network) (a b : Value) (options : Options) :
  requests (getEstimatedTime rt net a b options)
  = requests (calculateDistance rt net a b options)
  /\ (forall e, result (calculateDistance rt net a b options) = Rejected e ->
        result (getEstimatedTime rt net a b options) = Rejected e)
  /\ (forall res, result (calculateDistance rt net a b options) = Resolved res ->
        (duration res = None \/ duration res = Some JUndefined \/ duration res = Some JNull ->
           result (getEstimatedTime rt net a b options) = Resolved JNull)
        /\ (forall t, duration res = Some t -> t <> JUndefined -> t <> JNull ->
              result (getEstimatedTime rt net a b options) = Resolved t))
  /\ (forall t, result (getEstimatedTime rt net a b options) = Resolved t -> t <> JUndefined).
Proof.
  unfold result at 2 4 5 6, requests at 1. rewrite getEstimatedTime_run. cbn [fst snd].
  refine (conj eq_refl (conj _ (conj _ _))).
  - now intros e ->.
  - intros res ->. cbn [obind]. split.
    + now intros [-> |[-> | ->]].
    + intros t -> Hu Hn. now destruct t.
  - intros t. destruct (result (calculateDistance rt net a b options)) as [res|]; [|discriminate].
    cbn [obind]. intros [= <-]. now destruct (duration res) as [[]|].
Qed.

Lemma getEstimatedTime_follows_calculateDistance_witness :
  result (getEstimatedTime small_angle (answers (osrm_route_response 1100 0))
            (latlng 0 0) (latlng 0.001 0.001) no_options)
  = Resolved (JNum 0).
Proof.
  destruct (getEstimatedTime_follows_calculateDistance small_angle
              (answers (osrm_route_response 1100 0)) (latlng 0 0) (latlng 0.001 0.001)
              no_options) as (_ & _ & H & _).
  apply (proj2 (H {| distance := JNum 1100; duration := Some (JNum 0) |} eq_refl) (JNum 0));
    first [reflexivity | discriminate].
Defined.

(** * A request that fails, an answer that reports an error *)





(** * An answer with data: what the provider reports is what is returned *)



(** * The Google branches on an answer without data *)



(** * optimizeRoute: the ends of the Google route *)

(** X16.  In the Google branch of [optimizeRoute] the ends are fixed: when
    the call resolves, the first waypoint is the first point and the last
    waypoint is the last point, whatever the answer's [waypoint_order] holds;
    between them there is one waypoint for each entry of [waypoint_order]
    (none when there are two points), and [provider] is ["google"]. *)
Theorem optimizeRoute_google_keeps_the_ends
    (rt : Runtime) (net : Network) (points : Value) (options : Options)
    (pts : list Point) (r : Route) :
  validate_points rt points = Resolved pts ->
  google_selected options = true ->
  result (optimizeRoute rt net points options) = Resolved r ->
  exists first_point last_point inner,
    pts !! 0%nat = Some first_point
    /\ pts !! (length pts - 1)%nat = Some last_point
    /\ waypoints r = [Some first_point] ++ inner ++ [Some last_point]
    /\ (if (2 <? length pts)%nat
        then exists idxs, iterate (waypointsOrder r) = Resolved idxs
                          /\ length inner = length idxs
        else inner = [])
    /\ route_provider r = "google".
Proof.
  intros Hp G Hr. pose proof (validate_points_length rt points pts Hp) as Hlen.
  destruct (optimizeRoute_google rt net points options pts Hp G) as (req & _ & Hrun).
  unfold result in Hr. rewrite Hrun in Hr. cbn [fst] in Hr.
  destruct (response_json (net 0%nat req)) as [data|]; [|discriminate]. cbn [obind] in Hr.
  assert (Hprov : route_provider r = "google").
  { revert Hr. unfold google_route.
    repeat match goal with
           | |- context [obind ?m _] => destruct m; cbn [obind]; [|discriminate]
           | |- context [if ?c then Rejected _ else _] => destruct c; [discriminate|]
           end.
    now intros [= <-]. }
  destruct (lookup_lt_is_Some_2 pts 0) as [p0 H0]; [lia|].
  destruct (lookup_lt_is_Some_2 pts (length pts - 1)) as [pl Hl]; [lia|].
  apply google_route_waypoints in Hr.
  destruct (2 <? length pts)%nat eqn:E.
  - destruct Hr as (idxs & Hi & Hw). rewrite H0, Hl in Hw.
    exists p0, pl, (map (fun idx => element_at pts (js_add rt (JNum 1) idx)) idxs).
    refine (conj H0 (conj Hl (conj Hw (conj _ Hprov)))).
    exists idxs. split; [exact Hi|apply length_map].
  - apply Nat.ltb_ge in E. assert (Hn : length pts = 2%nat) by lia.
    rewrite Hn in Hl. cbn in Hl. rewrite H0, Hl in Hr.
    exists p0, pl, []. rewrite Hn. cbn [Nat.sub]. now rewrite Hr.
Qed.

Lemma optimizeRoute_google_keeps_the_ends_witness :
  exists first_point last_point inner,
    [ {| lat := 0; lng := 0 |}; {| lat := 0.001; lng := 0.001 |};
      {| lat := 0.002; lng := 0 |}; {| lat := 0.003; lng := 0 |} ] !! 0%nat = Some first_point
    /\ [ {| lat := 0; lng := 0 |}; {| lat := 0.001; lng := 0.001 |};
         {| lat := 0.002; lng := 0 |}; {| lat := 0.003; lng := 0 |} ] !! 3%nat = Some last_point
    /\ [Some {| lat := 0; lng := 0 |}; Some {| lat := 0.002; lng := 0 |};
        Some {| lat := 0.001; lng := 0.001 |}; Some {| lat := 0.003; lng := 0 |}]
       = [Some first_point] ++ inner ++ [Some last_point]
    /\ (exists idxs, iterate (JArr [JNum 1; JNum 0]) = Resolved idxs
                     /\ length inner = length idxs)
    /\ "google" = "google".
Proof.
  apply (optimizeRoute_google_keeps_the_ends small_angle
           (answers (google_directions_response (Some [1; 0]%float) 300 40))
           (JArr [latlng 0 0; latlng 0.001 0.001; latlng 0.002 0; latlng 0.003 0])
           (with_keys (JStr "key") JUndefined)
           [ {| lat := 0; lng := 0 |}; {| lat := 0.001; lng := 0.001 |};
             {| lat := 0.002; lng := 0 |}; {| lat := 0.003; lng := 0 |} ]
           {| waypoints := [Some {| lat := 0; lng := 0 |};
                            Some {| lat := 0.002; lng := 0 |};
                            Some {| lat := 0.001; lng := 0.001 |};
                            Some {| lat := 0.003; lng := 0 |}];
              waypointsOrder := JArr [JNum 1; JNum 0];
              route_distance := JNum 300; route_duration := JNum 40;
              route_provider := "google" |});
    [reflexivity|reflexivity|vm_compute; reflexivity].
Defined.

(** * optimizeRoute: the request and the totals of the Google branch *)

Lemma interior_points (pts : list Point) (p0 pl : Point) :
  (2 < length pts)%nat -> pts !! 0%nat = Some p0 -> pts !! (length pts - 1)%nat = Some pl ->
  pts = [p0] ++ take (length pts - 2) (drop 1 pts) ++ [pl].
Proof.
  intros Hn H0 Hl. destruct pts as [|q rest]; [discriminate|]. injection H0 as ->.
  cbn [length drop app] in *. f_equal.
  replace (S (length rest) - 2)%nat with (length rest - 1)%nat by lia.
  replace (S (length rest) - 1)%nat with (S (length rest - 1)) in Hl by lia.
  cbn in Hl. rewrite <- (take_drop (length rest - 1) rest) at 1. f_equal.
  apply list_eq. intros [|i].
  - rewrite lookup_drop, Nat.add_0_r. exact Hl.
  - rewrite lookup_drop. cbn. apply lookup_ge_None. lia.
Qed.



Lemma sum_of_numbers rt (xs : list float) : forall acc,
  foldl (js_add rt) (JNum acc) (map JNum xs) = JNum (foldl PrimFloat.add acc xs).
Proof. induction xs as [|x xs IH]; intros acc; [reflexivity|]. cbn. apply IH. Qed.

Lemma leg_values (field : string) (ls : list Value) (xs : list float) :
  Forall2 (fun l x => get l field = Resolved (JObj [("value", JNum x)])) ls xs ->
  traverse (leg_value field) ls = Resolved (map JNum xs).
Proof.
  induction 1 as [|l x ls xs Hl _ IH]; [reflexivity|].
  cbn [traverse map]. unfold leg_value at 1. rewrite Hl. cbn [obind truthy get assoc].
  cbn. now rewrite IH.
Qed.



(** * The OpenRouteService branch of calculateDistance *)

Lemma get_total (v : Value) (k : string) :
  v <> JUndefined -> v <> JNull -> exists w, get v k = Resolved w.
Proof. destruct v; try contradiction; intros _ _; eexists; reflexivity. Qed.

Lemma get_at_truthy (v : Value) (i : nat) :
  truthy v = true -> exists w, get_at v i = Resolved w.
Proof. destruct v; try discriminate; intros _; eexists; reflexivity. Qed.

(** [(m && m[0] && m[0][1])] throws nothing. *)
Lemma cell_0_1_total (m : Value) : exists v, cell_0_1 m = Resolved v.
Proof.
  unfold cell_0_1, and_then. destruct (truthy m) eqn:Em; [|now exists m].
  destruct (get_at_truthy m 0 Em) as [row0 ->]. cbn [obind].
  destruct (truthy row0) eqn:Er; [|now exists row0].
  apply get_at_truthy, Er.
Qed.



(** * optimizeRoute: what the OSRM branch returns besides the waypoints *)

(** X20.  What the OSRM branch of [optimizeRoute] resolves with.
    [waypointsOrder] is [null] and [provider] is ["osrm"], always.  When the
    answer has no trip ([trips] is missing, [null] or empty), the waypoints
    are the points of the caller, in the order given, and [distance] and
    [duration] are [null]. *)
Theorem optimizeRoute_osrm_fields
    (rt : Runtime) (net : Network) (points : Value) (options : Options)
    (pts : list Point) (data : Value) (r : Route) :
  validate_points rt points = Resolved pts ->
  google_selected options = false -> osrm_selected options = true ->
  (forall q, response_json (net 0%nat q) = Resolved data) ->
  result (optimizeRoute rt net points options) = Resolved r ->
  waypointsOrder r = JNull /\ route_provider r = "osrm"
  /\ (forall trips, get data "trips" = Resolved trips ->
        trips = JUndefined \/ trips = JNull \/ trips = JArr [] ->
        waypoints r = map Some pts
        /\ route_distance r = JNull /\ route_duration r = JNull).
Proof.
  intros Hp G S Hnet. unfold result.
  rewrite (optimizeRoute_osrm rt net points options pts Hp G S), Hnet. cbn [fst obind].
  unfold osrm_route.
  destruct (get data "code") as [code|]; [|discriminate]. cbn [obind].
  destruct (truthy code && negb (is_str code "Ok")); [discriminate|].
  destruct (get data "trips") as [trips|]; [|discriminate]. cbn [obind].
  destruct (and_then trips (get_at trips 0)) as [trip|] eqn:Etrip; [|discriminate].
  cbn [obind].
  destruct (and_then trip _) as [has_geometry|]; [|discriminate]. cbn [obind].
  destruct (if truthy has_geometry then _ else _) as [order|]; [|discriminate]. cbn [obind].
  destruct (get data "waypoints") as [ws|]; [|discriminate]. cbn [obind].
  destruct (and_then ws (get ws "length")) as [has_length|]; [|discriminate]. cbn [obind].
  destruct (if truthy has_length then _ else _) as [waypointOrder|]; [|discriminate].
  cbn [obind].
  destruct (and_then trip (get trip "legs")) as [has_legs|] eqn:Elegs; [|discriminate].
  cbn [obind].
  destruct (if truthy has_legs then _ else _) as [orderedPts|] eqn:Eord; [|discriminate].
  cbn [obind].
  destruct (if truthy trip then get trip "distance" else Resolved JNull) as [dist|] eqn:Ed;
    [|discriminate]. cbn [obind].
  destruct (if truthy trip then get trip "duration" else Resolved JNull) as [dur|] eqn:Et;
    [|discriminate]. cbn [obind].
  intros [= <-]. cbn [waypointsOrder route_provider waypoints route_distance route_duration].
  refine (conj eq_refl (conj eq_refl _)).
  intros trips' [= <-] Hno.
  assert (Htrip : truthy trip = false).
  { destruct Hno as [-> |[-> | ->]]; cbn in Etrip; now injection Etrip as <-. }
  rewrite Htrip in Ed, Et. injection Ed as <-. injection Et as <-.
  unfold and_then in Elegs. rewrite Htrip in Elegs. injection Elegs as <-.
  rewrite Htrip in Eord. injection Eord as <-. auto.
Qed.

Lemma optimizeRoute_osrm_fields_witness :
  JNull = JNull /\ "osrm" = "osrm"
  /\ (forall trips, get (JObj [("code", JStr "Ok")]) "trips" = Resolved trips ->
        trips = JUndefined \/ trips = JNull \/ trips = JArr [] ->
        [Some {| lat := 0; lng := 0 |}; Some {| lat := 1; lng := 1 |}]
        = map Some [ {| lat := 0; lng := 0 |}; {| lat := 1; lng := 1 |} ]
        /\ JNull = JNull /\ JNull = JNull).
Proof.
  apply (optimizeRoute_osrm_fields small_angle (answers (JObj [("code", JStr "Ok")]))
           (JArr [latlng 0 0; latlng 1 1]) no_options
           [ {| lat := 0; lng := 0 |}; {| lat := 1; lng := 1 |} ]
           (JObj [("code", JStr "Ok")])
           {| waypoints := [Some {| lat := 0; lng := 0 |}; Some {| lat := 1; lng := 1 |}];
              waypointsOrder := JNull; route_distance := JNull; route_duration := JNull;
              route_provider := "osrm" |});
    first [reflexivity | intros; reflexivity].
Defined.

(** * The OpenRouteService branch of getDistanceMatrix *)



(** * The tables of getDistanceMatrix *)

Lemma haversine_tables_square rt pts :
  squares (length pts) (haversine_tables rt pts).
Proof.
  unfold haversine_tables. rewrite (foldl_pairs (haversine_cell rt pts)).
  set (n := length pts). set (keys := list_prod (seq 0 n) (seq 0 n)).
  destruct (foldl_writes (fun ij t => haversine_cell rt pts (fst ij) (snd ij) t) (squares n)
              (fun t k => lookup2 (fst t) (fst k) (snd k))
              (fun k => haversine_distance_cell rt pts (fst k) (snd k)) keys)
    with (t := (replicate n (replicate n JNull), replicate n (replicate n JNull)))
    as [H _]; [| |exact H].
  - intros k t Hk Ht. destruct (haversine_cell_writes rt pts k t Hk Ht) as (? & ? & ?); auto.
  - split; apply square_empty.
Qed.

Lemma lookup2_outside n m i j :
  square n m -> (n <= i)%nat \/ (n <= j)%nat -> lookup2 m i j = None.
Proof.
  intros [Hlen Hrows] H. unfold lookup2. destruct (m !! i) as [row|] eqn:E; [|reflexivity].
  apply lookup_ge_None. rewrite (Hrows i row E).
  destruct H as [H|H]; [|exact H]. apply lookup_lt_Some in E. lia.
Qed.

(** Every cell of the fallback matrix, in range or not. *)
Lemma haversine_matrix_all_cells rt pts i j :
  cell (distances (haversine_matrix rt pts)) i j
  = (if (i <? length pts)%nat && (j <? length pts)%nat
     then Some (haversine_distance_cell rt pts i j) else None)
  /\ cell (durations (haversine_matrix rt pts)) i j
     = (if (i <? length pts)%nat && (j <? length pts)%nat
        then Some (haversine_duration_cell i j) else None).
Proof.
  destruct (i <? length pts)%nat eqn:Ei; [destruct (j <? length pts)%nat eqn:Ej|]; cbn [andb].
  - apply haversine_matrix_cells; now apply Nat.ltb_lt.
  - apply Nat.ltb_ge in Ej. pose proof (haversine_tables_square rt pts) as [Hd Ht].
    unfold haversine_matrix. destruct (haversine_tables rt pts) as [ds ts].
    cbn [distances durations fst snd] in *. rewrite !cell_rows.
    split; eapply lookup2_outside; eauto.
  - apply Nat.ltb_ge in Ei. pose proof (haversine_tables_square rt pts) as [Hd Ht].
    unfold haversine_matrix. destruct (haversine_tables rt pts) as [ds ts].
    cbn [distances durations fst snd] in *. rewrite !cell_rows.
    split; eapply lookup2_outside; eauto.
Qed.



Lemma haversine_distance_cell_symmetric rt pts i j :
  (forall x, Math_sin rt (- x) = (- Math_sin rt x)%float) ->
  haversine_distance_cell rt pts i j = haversine_distance_cell rt pts j i.
Proof.
  intros Hodd. unfold haversine_distance_cell. rewrite (Nat.eqb_sym j i).
  destruct (i =? j)%nat; [reflexivity|].
  destruct (pts !! i) as [a|], (pts !! j) as [b|]; try reflexivity.
  now rewrite (haversine_symmetric rt a b Hodd).
Qed.



Lemma validate_points_entries rt l pts :
  validate_points rt (JArr l) = Resolved pts ->
  forall j p, l !! j = Some p ->
    exists pt, pts !! j = Some pt /\ _validatePoint rt p (PointsAt j) = Resolved pt.
Proof.
  unfold validate_points. destruct (length l <? 2)%nat; [discriminate|].
  intros H%validate_from_entries. apply H.
Qed.



(** The rows that a traversal returns are results of the function. *)
Lemma traverse_results {A B} (f : A -> Outcome B) (l : list A) : forall bs,
  traverse f l = Resolved bs -> Forall (fun b => exists a, f a = Resolved b) bs.
Proof.
  induction l as [|a l IH]; intros bs; cbn [traverse].
  - intros [= <-]. constructor.
  - destruct (f a) as [b|] eqn:E; [|discriminate]. cbn [obind].
    destruct (traverse f l) as [rest|]; [|discriminate]. cbn [obind].
    intros [= <-]. constructor; [now exists a|]. now apply IH.
Qed.

Lemma for_index_results {A} rt (v : Value) (body : Value -> Outcome A) bs :
  for_index rt v body = Resolved bs -> Forall (fun b => exists x, body x = Resolved b) bs.
Proof.
  unfold for_index. destruct (rounds rt v) as [[n|]|]; try discriminate. cbn [obind].
  intros H%traverse_results. eapply Forall_impl; [exact H|].
  intros b (i & Hi). cbn in Hi. destruct (get_at v i) as [x|]; [|discriminate].
  now exists x.
Qed.

Lemma google_matrix_rows rt data m :
  google_matrix rt data = Resolved m ->
  exists rs : list (list (Value * Value)),
    distances m = JArr (map (fun cells => JArr (map fst cells)) rs)
    /\ durations m = JArr (map (fun cells => JArr (map snd cells)) rs).
Proof.
  unfold google_matrix.
  destruct (get data "status") as [status|]; [|discriminate]. cbn [obind].
  destruct (negb (is_str status "OK")); [discriminate|].
  destruct (get data "rows") as [rows|]; [|discriminate]. cbn [obind].
  destruct (for_index rt rows (google_row rt)) as [rs|] eqn:E; [|discriminate]. cbn [obind].
  intros [= <-]. cbn [distances durations].
  apply for_index_results in E.
  induction E as [|r rs (row & Hrow) _ (rs' & Hd & Ht)].
  - now exists [].
  - unfold google_row in Hrow.
    destruct (get row "elements") as [elements|]; [|discriminate]. cbn [obind] in Hrow.
    destruct (for_index rt elements google_element) as [cells|]; [|discriminate].
    injection Hrow as <-. exists (cells :: rs'). cbn [map fst snd].
    injection Hd as ->. injection Ht as ->. now split.
Qed.

(** X25.  In the Google branch of [getDistanceMatrix] the two tables are
    filled together, element by element, and have the same shape: a cell
    exists in [distances] exactly when it exists in [durations]. *)
Theorem getDistanceMatrix_google_same_shape
    (rt : Runtime) (net : Network) (points : Value) (options : Options)
    (pts : list Point) (m : Matrix) :
  validate_points rt points = Resolved pts ->
  google_selected options = true ->
  result (getDistanceMatrix rt net points options) = Resolved m ->
  forall i j, is_Some (cell (distances m) i j) <-> is_Some (cell (durations m) i j).
Proof.
  intros Hp G. unfold result.
  rewrite (getDistanceMatrix_run rt net points options pts Hp), G. cbn [fst].
  destruct (response_json _) as [data|]; [|discriminate]. cbn [obind].
  intros (rs & -> & ->)%google_matrix_rows i j. unfold cell.
  change (map ?f rs) with (f <$> rs). rewrite !list_lookup_fmap.
  destruct (rs !! i) as [cells|]; cbn; [|reflexivity].
  change (map ?f cells) with (f <$> cells). rewrite !list_lookup_fmap.
  destruct (cells !! j); cbn; [|reflexivity].
  split; intros _; eexists; reflexivity.
Qed.

Lemma getDistanceMatrix_google_same_shape_witness :
  is_Some (cell (JArr [JArr [JNum 0; JNull]; JArr [JNum 1200; JNum 0]]) 0 1)
  <-> is_Some (cell (JArr [JArr [JNum 0; JNull]; JArr [JNum 900; JNum 0]]) 0 1).
Proof.
  apply (getDistanceMatrix_google_same_shape small_angle
           (answers (google_matrix_response
                       [[google_ok 0 0; google_not_found];
                        [google_ok 1200 900; google_ok 0 0]]))
           (JArr [latlng 0 0; latlng 0.001 0.001]) (with_keys (JStr "key") JUndefined)
           [ {| lat := 0; lng := 0 |}; {| lat := 0.001; lng := 0.001 |} ]
           {| distances := JArr [JArr [JNum 0; JNull]; JArr [JNum 1200; JNum 0]];
              durations := JArr [JArr [JNum 0; JNull]; JArr [JNum 900; JNum 0]] |});
    [reflexivity|reflexivity|vm_compute; reflexivity].
Defined.

(** * The Google branch of getDistanceMatrix, cell by cell *)

(** A loop over the indices of an array is a traversal of its elements. *)
Lemma traverse_indices {A} (body : Value -> Outcome A) (l : list Value) : forall pre,
  traverse (fun i => obind (get_at (JArr (pre ++ l)) i) body) (seq (length pre) (length l))
  = traverse body l.
Proof.
  induction l as [|x l IH]; intros pre; [reflexivity|].
  specialize (IH (pre ++ [x])). rewrite <- app_assoc, length_app in IH.
  cbn [app length] in IH. rewrite Nat.add_1_r in IH.
  cbn [length seq traverse]. rewrite IH.
  cbn [get_at obind]. now rewrite nth_middle.
Qed.

Lemma for_index_array {A} rt (body : Value -> Outcome A) (l : list Value) :
  for_index rt (JArr l) body = traverse body l.
Proof. unfold for_index. cbn [rounds obind]. apply (traverse_indices body l []). Qed.

Lemma traverse_lookup {A B} (f : A -> Outcome B) (l : list A) : forall bs i a,
  traverse f l = Resolved bs -> l !! i = Some a ->
  exists b, bs !! i = Some b /\ f a = Resolved b.
Proof.
  induction l as [|x l IH]; intros bs i a; cbn [traverse]; [discriminate|].
  destruct (f x) as [b|] eqn:E; [|discriminate]. cbn [obind].
  destruct (traverse f l) as [rest|] eqn:Et; [|discriminate]. cbn [obind].
  intros [= <-]. destruct i as [|i]; cbn.
  - intros [= <-]. now exists b.
  - intros Hi. now apply (IH rest i a).
Qed.

(** X26.  On a well-formed answer the Google branch of [getDistanceMatrix]
    copies the answer cell by cell: for the element at place [j] of the
    [elements] of the row at place [i], with the status ["OK"], the cell at
    row [i], column [j] of [distances] is the [value] of its [distance] and
    the same cell of [durations] is the [value] of its [duration], or [null]
    when it has no duration. *)
Theorem getDistanceMatrix_google_copies_the_cells
    (rt : Runtime) (net : Network) (points : Value) (options : Options)
    (pts : list Point) (data : Value) (rows : list Value) (m : Matrix) :
  validate_points rt points = Resolved pts ->
  google_selected options = true ->
  (forall q, response_json (net 0%nat q) = Resolved data) ->
  get data "rows" = Resolved (JArr rows) ->
  result (getDistanceMatrix rt net points options) = Resolved m ->
  forall i j row elems elem d dv t,
    rows !! i = Some row -> get row "elements" = Resolved (JArr elems) ->
    elems !! j = Some elem ->
    get elem "status" = Resolved (JStr "OK") ->
    get elem "distance" = Resolved d -> get d "value" = Resolved dv ->
    get elem "duration" = Resolved t ->
    cell (distances m) i j = Some dv
    /\ (truthy t = false -> cell (durations m) i j = Some JNull)
    /\ (forall tv, truthy t = true -> get t "value" = Resolved tv ->
          cell (durations m) i j = Some tv).
Proof.
  intros Hp G Hnet Hrows. unfold result.
  rewrite (getDistanceMatrix_run rt net points options pts Hp), G, Hnet. cbn [fst obind].
  unfold google_matrix.
  destruct (get data "status") as [status|]; [|discriminate]. cbn [obind].
  destruct (negb (is_str status "OK")); [discriminate|].
  rewrite Hrows. cbn [obind]. rewrite for_index_array.
  destruct (traverse (google_row rt) rows) as [rs|] eqn:Ers; [|discriminate]. cbn [obind].
  intros [= <-] i j row elems elem d dv t Hi Hel Hj Hst Hd Hdv Ht.
  cbn [distances durations].
  destruct (traverse_lookup _ _ _ i row Ers Hi) as ([ds ts] & Hr & Hrow).
  unfold google_row in Hrow. rewrite Hel in Hrow. cbn [obind] in Hrow.
  rewrite for_index_array in Hrow.
  destruct (traverse google_element elems) as [cells|] eqn:Ec; [|discriminate].
  injection Hrow as <- <-.
  destruct (traverse_lookup _ _ _ j elem Ec Hj) as ([cd ct] & Hc & Helem).
  assert (Te : truthy elem = true) by (destruct elem; try discriminate; reflexivity).
  unfold google_element, and_then in Helem. rewrite Te, Hst in Helem.
  cbn [obind is_str String.eqb Ascii.eqb Bool.eqb truthy] in Helem.
  rewrite Hd in Helem. cbn [obind] in Helem. rewrite Hdv in Helem. cbn [obind] in Helem.
  rewrite Ht in Helem. cbn [obind] in Helem.
  assert (Hcd : cell (JArr (map fst rs)) i j = Some cd).
  { unfold cell. change (map fst rs) with (fst <$> rs). rewrite list_lookup_fmap, Hr. cbn.
    change (map fst cells) with (fst <$> cells). now rewrite list_lookup_fmap, Hc. }
  assert (Hct : cell (JArr (map snd rs)) i j = Some ct).
  { unfold cell. change (map snd rs) with (snd <$> rs). rewrite list_lookup_fmap, Hr. cbn.
    change (map snd cells) with (snd <$> cells). now rewrite list_lookup_fmap, Hc. }
  rewrite Hcd, Hct. destruct (truthy t) eqn:Tt.
  - destruct (get t "value") as [tv|] eqn:Htv; [|discriminate]. injection Helem as <- <-.
    refine (conj eq_refl (conj _ _)); [discriminate|]. now intros tv' _ [= <-].
  - injection Helem as <- <-. refine (conj eq_refl (conj _ _)); [reflexivity|discriminate].
Qed.

Lemma getDistanceMatrix_google_copies_the_cells_witness :
  cell (JArr [JArr [JNum 0; JNull]; JArr [JNum 1200; JNum 0]]) 1 0 = Some (JNum 1200)
  /\ (truthy (JObj [("value", JNum 900)]) = false ->
      cell (JArr [JArr [JNum 0; JNull]; JArr [JNum 900; JNum 0]]) 1 0 = Some JNull)
  /\ (forall tv, truthy (JObj [("value", JNum 900)]) = true ->
        get (JObj [("value", JNum 900)]) "value" = Resolved tv ->
        cell (JArr [JArr [JNum 0; JNull]; JArr [JNum 900; JNum 0]]) 1 0 = Some tv).
Proof.
  apply (getDistanceMatrix_google_copies_the_cells small_angle
           (answers (google_matrix_response
                       [[google_ok 0 0; google_not_found];
                        [google_ok 1200 900; google_ok 0 0]]))
           (JArr [latlng 0 0; latlng 0.001 0.001]) (with_keys (JStr "key") JUndefined)
           [ {| lat := 0; lng := 0 |}; {| lat := 0.001; lng := 0.001 |} ]
           (google_matrix_response
              [[google_ok 0 0; google_not_found]; [google_ok 1200 900; google_ok 0 0]])
           [JObj [("elements", JArr [google_ok 0 0; google_not_found])];
            JObj [("elements", JArr [google_ok 1200 900; google_ok 0 0])]]
           {| distances := JArr [JArr [JNum 0; JNull]; JArr [JNum 1200; JNum 0]];
              durations := JArr [JArr [JNum 0; JNull]; JArr [JNum 900; JNum 0]] |}
           eq_refl eq_refl (fun _ => eq_refl) eq_refl)
    with (row := JObj [("elements", JArr [google_ok 1200 900; google_ok 0 0])])
         (elems := [google_ok 1200 900; google_ok 0 0]) (elem := google_ok 1200 900)
         (d := JObj [("value", JNum 1200)]);
    first [reflexivity | vm_compute; reflexivity].
Defined.

(** * The Haversine fallback of calculateDistance *)



(** * The order of binary64 numbers: what is not below *)

Lemma SFcompare_below_floor x y z :
  SFcompare x y = Some Lt ->
  (forall c, SFcompare z y = Some c -> c <> Lt) ->
  z <> S754_nan ->
  SFcompare x z = Some Lt.
Proof.
  destruct x as [[|]|[|]| |[|] m1 e1], y as [[|]|[|]| |[|] m2 e2],
           z as [[|]|[|]| |[|] m3 e3];
    cbn; try congruence; intros H1 H2 H3;
    try (injection H1 as H1); try reflexivity;
    try (now exfalso; apply (H2 _ eq_refl));
    specialize (H2 _ eq_refl); f_equal;
    rewrite ?compare_lt_positive, ?compare_lt_negative in *; lia.
Qed.

(** What is below a bound is below every number that is not below it. *)
Lemma ltb_below_floor (x y z : float) :
  (x <? y)%float = true -> (z <? y)%float = false -> is_nan z = false ->
  (x <? z)%float = true.
Proof.
  rewrite !ltb_spec. unfold SFltb. intros H1 H2 H3.
  destruct (SFcompare (Prim2SF x) (Prim2SF y)) as [[| |]|] eqn:E1; try discriminate.
  rewrite (SFcompare_below_floor _ _ _ E1); [reflexivity| |].
  - intros c Hc ->. now rewrite Hc in H2.
  - intros Hz. unfold is_nan in H3. rewrite eqb_spec in H3. unfold SFeqb in H3.
    rewrite Hz in H3. discriminate.
Qed.

(** * The nearest-neighbour loop: ties *)

Section Ties.
Variable rt : Runtime.
Variable pts : list Point.

Lemma scan_knows_floor visited last seen acc j pj :
  scan_knows rt pts visited last seen acc ->
  seen j -> visited !! j = Some false -> pts !! j = Some pj ->
  (_haversine rt last pj <? snd acc)%float = false.
Proof.
  destruct acc as [[best|] d]; cbn.
  - intros (pb & _ & _ & _ & _ & Hmin). eauto.
  - intros [-> Hmin]. eauto.
Qed.

Lemma first_found_step visited last acc bound :
  scan_knows rt pts visited last (fun j => (j < bound)%nat) acc ->
  first_found rt pts visited last acc ->
  (forall best, fst acc = Some best -> (best < bound)%nat) ->
  first_found rt pts visited last (scan_step rt pts visited last acc bound)
  /\ (forall best, fst (scan_step rt pts visited last acc bound) = Some best ->
        (best < S bound)%nat).
Proof.
  intros K F B. unfold scan_step.
  destruct (visited !! bound) as [[|]|] eqn:Ev;
    try (split; [exact F|intros best Hb; specialize (B best Hb); lia]).
  destruct (pts !! bound) as [pb|] eqn:Ep;
    try (split; [exact F|intros best Hb; specialize (B best Hb); lia]).
  destruct (_haversine rt last pb <? snd acc)%float eqn:Ed;
    try (split; [exact F|intros best Hb; specialize (B best Hb); lia]).
  split.
  - intros j pj Hj Hv Hp Hnan. cbn [snd].
    apply ltb_below_floor with (snd acc); [exact Ed| |exact Hnan].
    now apply (scan_knows_floor visited last _ acc j pj K).
  - cbn. intros best [= <-]. lia.
Qed.

Lemma first_found_fold visited last k : forall bound acc,
  scan_knows rt pts visited last (fun j => (j < bound)%nat) acc ->
  first_found rt pts visited last acc ->
  (forall best, fst acc = Some best -> (best < bound)%nat) ->
  first_found rt pts visited last (foldl (scan_step rt pts visited last) acc (seq bound k)).
Proof.
  induction k as [|k IH]; intros bound acc K F B; cbn [seq foldl]; [exact F|].
  destruct (first_found_step visited last acc bound K F B) as [F' B'].
  apply IH; [|exact F'|exact B'].
  apply scanned_weaken with (fun j' => (j' < bound)%nat \/ j' = bound).
  - intros j Hj. lia.
  - now apply scanned_step.
Qed.

Lemma scan_first visited last :
  first_found rt pts visited last (scan rt pts visited last).
Proof.
  unfold scan. apply first_found_fold.
  - cbn. split; [reflexivity|]. intros j pj Hj. lia.
  - exact I.
  - discriminate.
Qed.

Lemma lowest_push visited order l pl best :
  in_step (length pts) visited order -> lowest_index_first rt pts order ->
  last order = Some l -> pts !! l = Some pl ->
  fst (scan rt pts visited pl) = Some best ->
  lowest_index_first rt pts (order ++ [best]).
Proof.
  intros T L Hl Hpl Hs.
  pose proof (scan_spec rt pts visited pl) as Sp.
  pose proof (scan_first visited pl) as Sf. unfold first_found in Sf.
  destruct (scan rt pts visited pl) as [[b|] d]; [|discriminate].
  cbn in Hs. injection Hs as ->. cbn [fst snd] in Sf.
  destruct Sp as (pb & Hvb & Hpb & -> & _ & _).
  intros k cur next pc pn Hk HSk Hc Hn j pj Hj Hnot Hpj Hnan.
  destruct (decide (S k < length order)%nat) as [Hlt|Hge].
  - rewrite lookup_app_l in Hk by lia. rewrite lookup_app_l in HSk by lia.
    rewrite take_app_le in Hnot by lia. now apply (L k cur next pc pn Hk HSk Hc Hn j pj).
  - assert (Hklt : (k < length order)%nat).
    { apply lookup_lt_Some in HSk. rewrite length_app in HSk. cbn in HSk.
      destruct (decide (k < length order)%nat); [assumption|].
      rewrite lookup_app_r in Hk by lia. apply lookup_lt_Some in Hk. cbn in Hk. lia. }
    assert (HS : S k = length order) by lia.
    rewrite lookup_app_l in Hk by lia.
    rewrite HS, list_lookup_middle in HSk by reflexivity. injection HSk as <-.
    rewrite last_lookup in Hl. replace (pred (length order)) with k in Hl by lia.
    rewrite Hk in Hl. injection Hl as ->.
    rewrite Hpl in Hc. injection Hc as <-. rewrite Hpb in Hn. injection Hn as <-.
    rewrite HS, take_app_length in Hnot.
    apply (Sf j pj Hj); [|exact Hpj|exact Hnan].
    destruct T as (_ & _ & _ & Hv).
    rewrite (Hv j) by (apply lookup_lt_Some in Hpj; exact Hpj).
    now rewrite bool_decide_eq_false_2.
Qed.

Lemma nearest_loop_lowest k : forall visited order,
  in_step (length pts) visited order -> greedy rt pts order ->
  lowest_index_first rt pts order -> order <> [] ->
  lowest_index_first rt pts (nearest_loop rt k pts visited order).
Proof.
  induction k as [|k IH]; intros visited order T G L Hne; cbn [nearest_loop]; [exact L|].
  destruct (last order) as [l|] eqn:Hl; [|exact L].
  cbn [mbind option_bind]. destruct (pts !! l) as [pl|] eqn:Hpl; [|exact L].
  destruct (fst (scan rt pts visited pl)) as [best|] eqn:Hs; [|exact L].
  destruct (greedy_push rt pts visited order l pl best T G Hl Hpl Hs) as [Hvb G'].
  apply IH.
  - now apply tracked_push.
  - exact G'.
  - now apply (lowest_push visited order l pl best).
  - now destruct order.
Qed.

Lemma naiveOrder_lowest :
  (0 < length pts)%nat -> lowest_index_first rt pts (naiveOrder rt pts).
Proof.
  intros Hn. unfold naiveOrder. apply nearest_loop_lowest.
  - now apply tracked_start.
  - apply greedy_start.
  - intros k cur next pc pn _ H. destruct k; discriminate.
  - discriminate.
Qed.

End Ties.

Lemma ltb_not_eqb (x y : float) : (x <? y)%float = true -> (y =? x)%float = false.
Proof.
  rewrite ltb_spec, eqb_spec. unfold SFltb, SFeqb.
  destruct (SFcompare (Prim2SF x) (Prim2SF y)) as [[| |]|] eqn:E; try discriminate.
  intros _. destruct (SFcompare (Prim2SF y) (Prim2SF x)) as [[| |]|] eqn:E'; try reflexivity.
  exfalso. revert E E'.
  destruct (Prim2SF x) as [[|]|[|]| |[|] m1 e1], (Prim2SF y) as [[|]|[|]| |[|] m2 e2];
    cbn; try congruence; intros [= H1] [= H2];
    rewrite ?compare_lt_positive, ?compare_lt_negative in *;
    destruct (Z.compare_spec e2 e1); try discriminate;
    try (rewrite <- ?Pos.compare_cont_antisym in H2);
    change (Pos.compare_cont Eq ?a ?b) with (a ?= b)%positive in *;
    try (apply CompOpp_iff in H2; cbn in H2);
    rewrite ?Pos.compare_eq_iff in *; lia.
Qed.



(** * The nearest-neighbour loop: when it stops early *)

Section EarlyStop.
Variable rt : Runtime.
Variable pts : list Point.

(** An order as long as the list holds every index. *)
Lemma in_step_full visited order j :
  in_step (length pts) visited order -> (length pts <= length order)%nat ->
  (j < length pts)%nat -> j ∈ order.
Proof.
  intros (_ & Hnd & Hin & _) Hlen Hj.
  assert (Hsub : order ⊆+ seq 0 (length pts)).
  { apply NoDup_submseteq; [exact Hnd|]. intros i Hi. apply elem_of_seq.
    specialize (Hin i Hi). lia. }
  assert (Hperm : order ≡ₚ seq 0 (length pts)).
  { apply submseteq_length_Permutation; [exact Hsub|]. now rewrite length_seq. }
  rewrite Hperm. apply elem_of_seq. lia.
Qed.

Lemma nearest_loop_misses k : forall visited order,
  in_step (length pts) visited order -> order <> [] ->
  (length pts <= length order + k)%nat ->
  forall j pj, pts !! j = Some pj -> j ∉ nearest_loop rt k pts visited order ->
    exists l pl, last (nearest_loop rt k pts visited order) = Some l
      /\ pts !! l = Some pl
      /\ (_haversine rt pl pj <? infinity)%float = false.
Proof.
  induction k as [|k IH]; intros visited order T Hne Hlen j pj Hpj Hnot;
    cbn [nearest_loop] in *.
  - exfalso. apply Hnot. apply (in_step_full visited order j T); [lia|].
    now apply lookup_lt_Some in Hpj.
  - destruct (last order) as [l|] eqn:Hl.
    2:{ apply last_None in Hl. contradiction. }
    assert (Hln : (l < length pts)%nat).
    { destruct T as (_ & _ & Hin & _). apply Hin. now apply last_Some_elem_of. }
    destruct (pts !! l) as [pl|] eqn:Hpl.
    2:{ apply lookup_ge_None in Hpl. lia. }
    cbn [mbind option_bind] in *. rewrite Hpl in *.
    pose proof (scan_spec rt pts visited pl) as Sp.
    destruct (scan rt pts visited pl) as [[best|] d] eqn:Hs; cbn [fst] in *.
    + destruct Sp as (pb & Hvb & _).
      assert (T' : in_step (length pts) (<[best := true]> visited) (order ++ [best]))
        by now apply tracked_push.
      assert (Hne' : order ++ [best] <> []) by now destruct order.
      assert (Hlen' : (length pts <= length (order ++ [best]) + k)%nat)
        by (rewrite length_app; cbn; lia).
      exact (IH _ _ T' Hne' Hlen' j pj Hpj Hnot).
    + destruct Sp as [_ Hmin]. exists l, pl. refine (conj Hl (conj Hpl _)).
      assert (Hj : (j < length pts)%nat) by now apply lookup_lt_Some in Hpj.
      apply (Hmin j pj Hj); [|exact Hpj].
      destruct T as (_ & _ & _ & Hv). rewrite (Hv j Hj).
      now rewrite bool_decide_eq_false_2.
Qed.

Lemma naiveOrder_misses j pj :
  (0 < length pts)%nat -> pts !! j = Some pj -> j ∉ naiveOrder rt pts ->
  exists l pl, last (naiveOrder rt pts) = Some l
    /\ pts !! l = Some pl
    /\ (_haversine rt pl pj <? infinity)%float = false.
Proof.
  intros Hn. unfold naiveOrder. apply nearest_loop_misses.
  - now apply tracked_start.
  - discriminate.
  - cbn. lia.
Qed.

End EarlyStop.



(** * Coordinates in a URL *)

Lemma split_at (c : ascii) (s1 : string) : forall s2 t1 t2,
  free_of c s1 = true -> free_of c s2 = true ->
  (s1 ++ String c t1)%string = (s2 ++ String c t2)%string ->
  s1 = s2 /\ t1 = t2.
Proof.
  induction s1 as [|d s1 IH]; intros [|d' s2] t1 t2 F1 F2; cbn in *.
  - now intros [= ->].
  - intros [= <- _]. now rewrite Ascii.eqb_refl in F2.
  - intros [= -> _]. now rewrite Ascii.eqb_refl in F1.
  - intros [= <- H]. apply andb_prop in F1 as [_ F1]. apply andb_prop in F2 as [_ F2].
    destruct (IH s2 t1 t2 F1 F2 H) as [-> ->]. auto.
Qed.

Lemma free_of_app (c : ascii) (s t : string) :
  free_of c (s ++ t)%string = free_of c s && free_of c t.
Proof.
  induction s as [|d s IH]; cbn; [reflexivity|]. now rewrite IH, andb_assoc.
Qed.

Section Coordinates.
Variable NumberToString : float -> string.
Hypothesis no_comma : forall x, free_of "," (NumberToString x) = true.
Hypothesis no_semicolon : forall x, free_of ";" (NumberToString x) = true.

Lemma toOsrmCoord_injective p q :
  _toOsrmCoord NumberToString p = _toOsrmCoord NumberToString q ->
  NumberToString (lng p) = NumberToString (lng q)
  /\ NumberToString (lat p) = NumberToString (lat q).
Proof. unfold _toOsrmCoord. intros H. apply (split_at "," _ _ _ _ (no_comma _) (no_comma _) H). Qed.

Lemma toOsrmCoord_free p : free_of ";" (_toOsrmCoord NumberToString p) = true.
Proof.
  unfold _toOsrmCoord. change ("," ++ ?s)%string with (String "," s).
  rewrite free_of_app. cbn. now rewrite !no_semicolon.
Qed.

Lemma join_coords_injective ps : forall qs,
  osrm_coords NumberToString ps = osrm_coords NumberToString qs ->
  map (_toOsrmCoord NumberToString) ps = map (_toOsrmCoord NumberToString) qs.
Proof.
  unfold osrm_coords.
  assert (Hne : forall p s, (_toOsrmCoord NumberToString p ++ s)%string <> ""%string).
  { intros p s. unfold _toOsrmCoord. destruct (NumberToString (lng p)); discriminate. }
  assert (Hne' : forall p, _toOsrmCoord NumberToString p <> ""%string).
  { intros p. unfold _toOsrmCoord. destruct (NumberToString (lng p)); discriminate. }
  assert (Hsep : forall p q s,
             _toOsrmCoord NumberToString p
             <> (_toOsrmCoord NumberToString q ++ String ";" s)%string).
  { intros p q s H. pose proof (toOsrmCoord_free p) as F. rewrite H, free_of_app in F.
    cbn in F. now rewrite andb_false_r in F. }
  induction ps as [|p ps IH]; intros [|q qs]; cbn [map].
  - reflexivity.
  - destruct qs; cbn [map join]; intros H; symmetry in H;
      [now apply Hne' in H|now apply Hne in H].
  - destruct ps; cbn [map join]; intros H; [now apply Hne' in H|now apply Hne in H].
  - destruct ps as [|p' ps], qs as [|q' qs]; cbn [map join].
    + now intros ->.
    + change (";" ++ ?s)%string with (String ";" s). intros H. now apply Hsep in H.
    + change (";" ++ ?s)%string with (String ";" s). intros H. symmetry in H.
      now apply Hsep in H.
    + change (";" ++ ?s)%string with (String ";" s). intros H.
      apply split_at in H as [-> H]; try apply toOsrmCoord_free.
      f_equal. apply (IH (q' :: qs)). exact H.
Qed.

End Coordinates.

(** X30.  The coordinates that go into a URL can be read back.  On an engine
    whose string form of a number holds no comma and no semicolon:
    [_toOsrmCoord] writes the longitude first and [_toGoogleLatLng] the
    latitude first, and each determines the string forms of both
    coordinates; the [coords] of an OSRM request, the points joined by
    semicolons, determine how many points there are and the string forms of
    the coordinates of each. *)
Theorem coordinates_can_be_read_back (NumberToString : float -> string) :
  (forall x, free_of "," (NumberToString x) = true) ->
  (forall x, free_of ";" (NumberToString x) = true) ->
  (forall p, _toOsrmCoord NumberToString p
             = _toGoogleLatLng NumberToString {| lat := lng p; lng := lat p |})
  /\ (forall p q, _toGoogleLatLng NumberToString p = _toGoogleLatLng NumberToString q ->
        NumberToString (lat p) = NumberToString (lat q)
        /\ NumberToString (lng p) = NumberToString (lng q))
  /\ (forall ps qs, osrm_coords NumberToString ps = osrm_coords NumberToString qs ->
        Forall2 (fun p q => NumberToString (lng p) = NumberToString (lng q)
                            /\ NumberToString (lat p) = NumberToString (lat q)) ps qs).
Proof.
  intros Hc Hs. refine (conj _ (conj _ _)).
  - reflexivity.
  - intros p q H. unfold _toGoogleLatLng in H.
    apply (split_at "," _ _ _ _ (Hc _) (Hc _) H).
  - intros ps qs H. apply (join_coords_injective NumberToString Hs) in H.
    revert qs H. induction ps as [|p ps IH]; intros [|q qs]; cbn; try discriminate.
    + constructor.
    + intros [= H1 H2]. constructor; [|now apply IH].
      now apply (toOsrmCoord_injective NumberToString Hc).
Qed.

Lemma coordinates_can_be_read_back_witness :
  _toOsrmCoord zero_or_one {| lat := 0; lng := 1 |}
  = _toGoogleLatLng zero_or_one {| lat := 1; lng := 0 |}.
Proof.
  apply (coordinates_can_be_read_back zero_or_one);
    intros x; unfold zero_or_one; destruct (is_zero x); reflexivity.
Defined.
